(** * draw.cpp: the draw-state engine of the terminal lottery

    A shallow embedding of the two interactive sessions of [draw.cpp]
    ([mode_list_draw], names drawn from a roster, and [mode_range_draw],
    integers drawn from [1..N]) together with the helpers they call
    ([trim], [dedup_preserve_order], [save_history_to_file],
    [animated_pick_index], [animated_pick_number]).

    Conventions of the embedding:
    - [std::string] is [string]; [std::vector<T>] is [list T], [push_back]
      is [(++ [x])], [v.erase(v.begin() + i)] is [delete i v], [v[i]] is
      [v !! i];
    - [int] is [Z]: the engine only counts and indexes with it, and its
      counters stay inside the [int] range as long as [N] and the sizes of
      the vectors are below [2^31 - 1], which the embedding takes for
      granted (signed overflow would be undefined, not a wrap-around);
    - [std::mt19937] with [std::uniform_int_distribution<int>] is an abstract
      generator state with one operation [uniform lo hi], of which only the
      library's range guarantee is assumed;
    - what the session prints is a list of messages, one constructor per
      message of the source; colours, boxes, cursor moves and key waits of
      the presenter are left out;
    - the file system is a finite map from paths to nodes. *)

From Stdlib Require Import ssreflect ZArith Ascii String DecimalString.
From stdpp Require Import base decidable option numbers list list_numbers strings gmap
  sorting.

#[local] Set Warnings "-rewrite-rw,-clear-no-such-hyp".

(** ** UI helpers: [trim] *)

(** The characters of the set [" \t\r\n"] given to [find_first_not_of] and
    [find_last_not_of]. *)
Definition is_blank (c : ascii) : bool :=
  (c =? " ")%char || (c =? "009")%char || (c =? "013")%char || (c =? "010")%char.

(** [s.find_first_not_of(" \t\r\n")]; [None] is [string::npos]. *)
Fixpoint find_first_not_of (s : string) : option nat :=
  match s with
  | EmptyString => None
  | String c s' => if is_blank c then S <$> find_first_not_of s' else Some 0%nat
  end.

(** [s.find_last_not_of(" \t\r\n")]; [None] is [string::npos]. *)
Fixpoint find_last_not_of (s : string) : option nat :=
  match s with
  | EmptyString => None
  | String c s' =>
      match find_last_not_of s' with
      | Some e => Some (S e)
      | None => if is_blank c then None else Some 0%nat
      end
  end.

(** [trim]: when [b] is a position, so is [e]; the branch for [e = npos]
    keeps what [substr(b, npos - b + 1)] would return, the rest of [s]. *)
Definition trim (s : string) : string :=
  match find_first_not_of s with
  | None => ""
  | Some b =>
      match find_last_not_of s with
      | Some e => substring b (e - b + 1) s
      | None => substring b (String.length s - b) s
      end
  end.

(** [line.empty()] *)
Definition empty (s : string) : bool :=
  match s with EmptyString => true | String _ _ => false end.

(** What [trim] removes, by recursion on the string: the blanks in front,
    the blanks behind, and the strings made of blanks only. *)
Fixpoint lstrip (s : string) : string :=
  match s with
  | EmptyString => ""
  | String c s' => if is_blank c then lstrip s' else s
  end.

Fixpoint rstrip (s : string) : string :=
  match s with
  | EmptyString => ""
  | String c s' =>
      match rstrip s' with
      | EmptyString => if is_blank c then "" else String c ""
      | r => String c r
      end
  end.

Fixpoint all_blank (s : string) : bool :=
  match s with
  | EmptyString => true
  | String c s' => is_blank c && all_blank s'
  end.

(** [clampi] *)
Definition clampi (v lo hi : Z) : Z :=
  if bool_decide (v < lo)%Z then lo
  else if bool_decide (v > hi)%Z then hi
  else v.

(** What reaches the screen: [rlutil::locate(col, row)] and the text sent to
    [cout] from there. *)
Record placed := { col : Z; row : Z; text : string }.

(** [string(n, c)] for an [int] count: the count becomes a [size_t], so a
    negative one is beyond [max_size()] and the constructor throws
    [length_error] ([None]). *)
Definition string_of_count (n : Z) (c : ascii) : option string :=
  if bool_decide (n < 0)%Z then None
  else Some (string_of_list_ascii (replicate (Z.to_nat n) c)).

(** The loop of [draw_box] from [i] on, with [todo] rounds left; [inner] is
    [string(w - 2, ' ')]. *)
Fixpoint box_sides (todo : nat) (i : Z) (x y : Z) (inner : string) : list placed :=
  match todo with
  | O => []
  | S todo' =>
      {| col := x; row := (y + i)%Z; text := "|" +:+ inner +:+ "|" |}
      :: box_sides todo' (i + 1)%Z x y inner
  end.

(** [draw_box]: the top border, the sides, the bottom border. *)
Definition draw_box (x y w h : Z) : option (list placed) :=
  dashes ← string_of_count (w - 2) "-";
  inner ← string_of_count (w - 2) " ";
  Some ({| col := x; row := y; text := "+" +:+ dashes +:+ "+" |}
        :: box_sides (Z.to_nat (h - 2)) 1 x y inner
        ++ [{| col := x; row := (y + h - 1)%Z; text := "+" +:+ dashes +:+ "+" |}]).

(** [print_centered]: [/] on [int] rounds towards zero; [s.size()] counts
    bytes. *)
Definition print_centered (x y w : Z) (s : string) : placed :=
  let pad := ((w - Z.of_nat (String.length s)) `quot` 2)%Z in
  let pad := clampi pad 0 w in
  {| col := (x + 1 + pad)%Z; row := y; text := s |}.

(** [ui_header]: the box and the lines of text inside it ([cls] before and
    the cursor moves after are left out). *)
Definition ui_header (title subtitle : string) : option (list placed) :=
  let W := 70%Z in
  let H := 9%Z in
  let X := 4%Z in
  let Y := 2%Z in
  box ← draw_box X Y W H;
  Some (box
        ++ [print_centered X (Y + 1) W "文字模式抽籤系統  Draw System";
            print_centered X (Y + 3) W title]
        ++ (if empty subtitle then [] else [print_centered X (Y + 5) W subtitle])).

(** The line feed written by [<< "\n"]. *)
Definition nl : string := String "010"%char "".

(** The rule that [ui_status_bar] prints first, between two line feeds. *)
Definition status_rule : string :=
  nl +:+ "------------------------------------------------------------" +:+ nl.

(** [ui_status_bar]: the bytes sent to [cout]. *)
Definition ui_status_bar (left right : string) : option string :=
  if empty right then Some (status_rule +:+ left +:+ nl)
  else
    let spaces := (60 - Z.of_nat (String.length left))%Z in
    let spaces := if bool_decide (spaces < 1)%Z then 1%Z else spaces in
    gap ← string_of_count spaces " ";
    Some (status_rule +:+ left +:+ gap +:+ right +:+ nl).

(** ** Data helpers *)

(** The inner loop of [dedup_preserve_order]: is [x] equal to some [y] of
    [out]? *)
Fixpoint seen (x : string) (out : list string) : bool :=
  match out with
  | [] => false
  | y :: out' => if String.eqb x y then true else seen x out'
  end.

(** [dedup_preserve_order]: the outer loop pushes every [x] not yet in [out];
    [dedup_from out v] is [out] after the loop has gone through [v]. *)
Fixpoint dedup_from (out v : list string) : list string :=
  match v with
  | [] => out
  | x :: v' => dedup_from (if seen x out then out else out ++ [x]) v'
  end.

Definition dedup_preserve_order (v : list string) : list string :=
  dedup_from [] v.

(** [fout << (i + 1)]: the decimal digits of an unsigned number. *)
Definition to_string (n : nat) : string :=
  NilZero.string_of_uint (Nat.to_uint n).

(** ** The file system seen through [ifstream] and [ofstream] *)

(** A path names a regular file with its bytes, or something a stream
    cannot open (a directory, a file without permission); an absent path is
    absent from the map. *)
Inductive node :=
  | File (data : string)
  | Locked.

(** [ifstream fin(filename)]: the bytes when the stream opens. *)
Definition open_in (fs : gmap string node) (filename : string) : option string :=
  match fs !! filename with
  | Some (File data) => Some data
  | _ => None
  end.

(** [ofstream fout(filename)]: the stream opens unless the path is locked;
    an absent file is created, an existing one truncated. *)
Definition open_out (fs : gmap string node) (filename : string) : bool :=
  match fs !! filename with
  | Some Locked => false
  | _ => true
  end.

(** The body of the loop of [save_history_to_file] from index [i] on, the
    bytes sent to [fout] so far being [sent]. *)
Fixpoint save_rows (i : nat) (history : list string) (sent : string) : string :=
  match history with
  | [] => sent
  | name :: rest => save_rows (S i) rest (sent +:+ to_string (i + 1) +:+ "," +:+ name +:+ nl)
  end.

(** [save_history_to_file]: returns at once when the stream did not open,
    otherwise the file holds what the loop sent. *)
Definition save_history_to_file (history : list string) (filename : string)
    (fs : gmap string node) : gmap string node :=
  if open_out fs filename then <[filename := File (save_rows 0 history "")]> fs
  else fs.

(** [while (getline(fin, line))]: the lines of a file; [cur] is the line
    being read.  A last line without line feed is still a line; nothing
    after the last line feed is not. *)
Fixpoint getlines (cur : string) (data : string) : list string :=
  match data with
  | EmptyString => if empty cur then [] else [cur]
  | String c data' =>
      if (c =? "010")%char then cur :: getlines "" data'
      else getlines (cur +:+ String c "") data'
  end.

(** A string without line feed; a text that is empty or ends in a line
    feed; the lines written back, each with its line feed. *)
Fixpoint no_nl (s : string) : bool :=
  match s with
  | EmptyString => true
  | String c s' => negb (c =? "010")%char && no_nl s'
  end.

Fixpoint terminated (s : string) : bool :=
  match s with
  | EmptyString => true
  | String c s' =>
      match s' with
      | EmptyString => (c =? "010")%char
      | String _ _ => terminated s'
      end
  end.

Definition unlines (lines : list string) : string :=
  foldr (λ line rest, line +:+ nl +:+ rest) "" lines.

(** ** The random source *)

(** [uniform lo hi g] is [dist(rng)] for
    [uniform_int_distribution<int> dist(lo, hi)]: a sample and the next
    generator state.  The C++ library promises [lo ≤ sample ≤ hi] when
    [lo ≤ hi]. *)
Class UniformRng (G : Type) := {
  uniform : Z → Z → G → Z * G;
  uniform_range lo hi g : (lo ≤ hi)%Z → (lo ≤ (uniform lo hi g).1 ≤ hi)%Z
}.

(** A generator that replays a script of raw values, reduced into the
    requested range; it makes seeded runs concrete. *)
Definition script_uniform (lo hi : Z) (g : list Z) : Z * list Z :=
  match g with
  | [] => (lo, [])
  | x :: g' => ((lo + x `mod` (hi - lo + 1))%Z, g')
  end.

#[export] Program Instance script_rng : UniformRng (list Z) :=
  {| uniform := script_uniform |}.
Next Obligation.
  intros lo hi [|x g] Hle; simpl; [lia|].
  pose proof (Z.mod_pos_bound x (hi - lo + 1)); lia.
Qed.

(** A generator that counts the samples taken from an underlying one. *)
#[export] Program Instance counting_rng `{UniformRng G} : UniformRng (G * nat) :=
  {| uniform lo hi gc := ((uniform lo hi gc.1).1, ((uniform lo hi gc.1).2, S gc.2)) |}.
Next Obligation. intros G HG lo hi gc Hle; simpl. by apply uniform_range. Qed.

Section animation.
Context `{UniformRng G} {msg : Type}.

(** The loop shared by [animated_pick_index] and [animated_pick_number]:
    [n] rounds, each taking one sample from [dist] and printing it through
    [show]. *)
Fixpoint animate (n : nat) (lo hi : Z) (show : Z → msg) (g : G) : list msg * G :=
  match n with
  | O => ([], g)
  | S n' =>
      let '(x, g1) := uniform lo hi g in
      let '(frames, g2) := animate n' lo hi show g1 in
      (show x :: frames, g2)
  end.

(** The generator after [n] samples of [dist(lo, hi)]. *)
Fixpoint rng_skip (n : nat) (lo hi : Z) (g : G) : G :=
  match n with
  | O => g
  | S n' => rng_skip n' lo hi (uniform lo hi g).2
  end.
End animation.

(** ** Mode A: list draw *)

Module ListDraw.

(** The three vectors of [mode_list_draw]. *)
Record roster := {
  all : list string;
  pool : list string;
  history : list string
}.

(** The vectors as the session declares them. *)
Definition fresh : roster := {| all := []; pool := []; history := [] |}.

(** What is outside the store: the files and the generator. *)
Record world (G : Type) := {
  fs : gmap string node;
  rng : G
}.
Arguments fs {G} _.
Arguments rng {G} _.

(** A menu choice with the input read after it.  [Back] is [op == 0],
    [Invalid] any choice outside [0..6]. *)
Inductive op :=
  | Back
  | Input (typed : list string)   (* 1, with the lines typed at the prompt *)
  | Load (filename : string)      (* 2 *)
  | Draw                          (* 3 *)
  | View (t : Z)                  (* 4 *)
  | Reset                         (* 5 *)
  | Export (out : string)         (* 6 *)
  | Invalid.

(** The messages of the session. *)
Inductive msg :=
  | Added (added : nat) (left : nat)       (* "新增 added 筆；目前可抽 left 人。" *)
  | Loaded (added : nat) (left : nat)      (* "已載入 added 筆；目前可抽 left 人。" *)
  | CannotOpen (filename : string)         (* "❌ 無法開啟檔案：filename" *)
  | NobodyToDraw                           (* "⚠️ 沒有人可以抽。" *)
  | Frame (name : option string)           (* ">>> pool[idx]" of the animation *)
  | Winner (winner : string) (left : nat)  (* "🎉 中籤：winner", "剩餘可抽： left 人" *)
  | Listing (v : list string)              (* "1. v[0]", "2. v[1]", ... *)
  | EmptyListing                           (* "（目前沒有任何名單）" and the like *)
  | ResetDone (left : nat)                 (* "可抽：left 人" *)
  | Exported (out : string)                (* "✅ 已輸出（若 history 為空則為空檔）： out" *)
  | InvalidOption.                         (* "無效選項。" *)

(** The error kinds of the design, and the message that reports each. *)
Inductive error := InvalidInput | EmptyPool | IoError.

Definition reports (m : msg) : option error :=
  match m with
  | CannotOpen _ => Some IoError
  | NobodyToDraw => Some EmptyPool
  | InvalidOption => Some InvalidInput
  | _ => None
  end.

(** The prompt loop of choice 1: a line that is empty once trimmed ends it
    (so does the end of the input, where [getline] leaves [line] empty). *)
Fixpoint read_typed (typed : list string) (all pool : list string) (added : nat)
    : list string * list string * nat :=
  match typed with
  | [] => (all, pool, added)
  | line :: typed' =>
      let line := trim line in
      if empty line then (all, pool, added)
      else read_typed typed' (all ++ [line]) (pool ++ [line]) (S added)
  end.

(** The file loop of choice 2: empty lines are skipped. *)
Fixpoint read_file (lines : list string) (all pool : list string) (added : nat)
    : list string * list string * nat :=
  match lines with
  | [] => (all, pool, added)
  | line :: lines' =>
      let line := trim line in
      if empty line then read_file lines' all pool added
      else read_file lines' (all ++ [line]) (pool ++ [line]) (S added)
  end.

(** [print_list] of choice 4. *)
Definition print_list (v : list string) : msg :=
  match v with
  | [] => EmptyListing
  | _ => Listing v
  end.

Section session.
Context `{UniformRng G}.

(** [animated_pick_index]: 26 frames, each showing the name at a sampled
    index, then the sample that is returned. *)
Definition animated_pick_index (pool : list string) (g : G) : Z * list msg * G :=
  let hi := (Z.of_nat (length pool) - 1)%Z in
  let '(frames, g1) := animate 26 0 hi (λ idx, Frame (pool !! Z.to_nat idx)) g in
  let '(idx, g2) := uniform 0 hi g1 in
  (idx, frames, g2).

(** One turn of the [while (true)] loop for a choice other than [Back]:
    the messages printed, the store and the world afterwards. *)
Definition step (o : op) (st : roster) (w : world G) : list msg * roster * world G :=
  match o with
  | Back => ([], st, w)
  | Input typed =>
      let '(all1, pool1, added) := read_typed typed (all st) (pool st) 0 in
      let all2 := dedup_preserve_order all1 in
      let pool2 := dedup_preserve_order pool1 in
      ([Added added (length pool2)],
       {| all := all2; pool := pool2; history := history st |}, w)
  | Load filename =>
      match open_in (fs w) filename with
      | None => ([CannotOpen filename], st, w)
      | Some data =>
          let '(all1, pool1, added) := read_file (getlines "" data) (all st) (pool st) 0 in
          let all2 := dedup_preserve_order all1 in
          let pool2 := dedup_preserve_order pool1 in
          ([Loaded added (length pool2)],
           {| all := all2; pool := pool2; history := history st |}, w)
      end
  | Draw =>
      if bool_decide (pool st = []) then ([NobodyToDraw], st, w)
      else
        let '(idx, frames, g) := animated_pick_index (pool st) (rng w) in
        match pool st !! Z.to_nat idx with
        | Some winner =>
            let pool1 := delete (Z.to_nat idx) (pool st) in
            (frames ++ [Winner winner (length pool1)],
             {| all := all st; pool := pool1; history := history st ++ [winner] |},
             {| fs := fs w; rng := g |})
        | None =>
            (* [pool[idx]] outside the vector: undefined in C++, and
               excluded by [uniform_range] *)
            (frames, st, {| fs := fs w; rng := g |})
        end
  | View t =>
      if bool_decide (t = 0%Z) then ([], st, w)
      else if bool_decide (t = 1%Z) then ([print_list (all st)], st, w)
      else if bool_decide (t = 2%Z) then ([print_list (pool st)], st, w)
      else if bool_decide (t = 3%Z) then ([print_list (history st)], st, w)
      else ([], st, w)
  | Reset =>
      ([ResetDone (length (all st))],
       {| all := all st; pool := all st; history := [] |}, w)
  | Export out =>
      ([Exported out], st,
       {| fs := save_history_to_file (history st) out (fs w); rng := rng w |})
  | Invalid => ([InvalidOption], st, w)
  end.

(** The session loop over the choices made: [Back] returns. *)
Fixpoint run (ops : list op) (st : roster) (w : world G) : list msg * roster * world G :=
  match ops with
  | [] => ([], st, w)
  | Back :: _ => ([], st, w)
  | o :: ops' =>
      let '(out1, st1, w1) := step o st w in
      let '(out2, st2, w2) := run ops' st1 w1 in
      (out1 ++ out2, st2, w2)
  end.

End session.

(** *** The store as the design describes it *)

(** Roster conservation: [pool] and [history] are disjoint,
    [|all| = |pool| + |history|], and [all] has no duplicates. *)
Definition conservation (st : roster) : Prop :=
  (∀ x, x ∈ pool st → x ∉ history st)
  ∧ length (all st) = length (pool st) + length (history st)
  ∧ NoDup (all st).

(** The names a prompt session accepts: the trimmed lines before the first
    empty one. *)
Fixpoint accepted (typed : list string) : list string :=
  match typed with
  | [] => []
  | line :: typed' =>
      if empty (trim line) then [] else trim line :: accepted typed'
  end.

(** The names a file brings: its trimmed lines that are not empty. *)
Definition nonblank (lines : list string) : list string :=
  filter (λ line, empty line = false) (trim <$> lines).

(** The export as the design words it: one record [i,name] and a line feed
    per entry of the history, [i] counting from 1, nothing else. *)
Definition csv_record (i : nat) (name : string) : string :=
  to_string (i + 1) +:+ "," +:+ name +:+ nl.


(** The names a choice brings to the roster: the lines accepted at the
    prompt, the lines of the file that opens, nothing otherwise. *)
Definition brings {G} (o : op) (w : world G) : list string :=
  match o with
  | Input typed => accepted typed
  | Load filename =>
      match open_in (fs w) filename with
      | Some data => nonblank (getlines "" data)
      | None => []
      end
  | _ => []
  end.

(** A store that lost nothing and holds nothing twice: [all] without
    duplicates, and [pool] with [history] a rearrangement of it. *)
Definition partitioned (st : roster) : Prop :=
  NoDup (all st) ∧ pool st ++ history st ≡ₚ all st.

(** What always holds of the three vectors. *)
Definition well_formed (st : roster) : Prop :=
  NoDup (all st) ∧ NoDup (pool st)
  ∧ (∀ x, x ∈ pool st → x ∈ all st)
  ∧ (∀ x, x ∈ history st → x ∈ all st).

(** A roster entry as the prompt and the file loop let it in: not empty,
    and with nothing left to trim. *)
Definition clean (name : string) : Prop :=
  empty name = false ∧ trim name = name.

(** The choices that write a file, and the choices that draw. *)
Definition exports (o : op) : bool :=
  match o with Export _ => true | _ => false end.

Definition draws (o : op) : bool :=
  match o with Draw => true | _ => false end.

End ListDraw.

(** ** Mode B: range draw *)

Module RangeDraw.

Local Open Scope Z_scope.

(** The locals of [mode_range_draw]. *)
Record range := {
  N : Z;
  noRepeat : bool;
  pool : list Z;       (* for no-repeat *)
  history : list Z     (* drawn numbers *)
}.

(** The locals as the session declares them. *)
Definition fresh : range := {| N := 0; noRepeat := true; pool := []; history := [] |}.

(** A menu choice with the input read after it. *)
Inductive op :=
  | Back
  | SetN (n : Z)     (* 1, with the number read into [N] *)
  | Toggle           (* 2 *)
  | Draw             (* 3 *)
  | View             (* 4 *)
  | Reset            (* 5 *)
  | Invalid.

(** The messages of the session. *)
Inductive msg :=
  | MustBePositive                 (* "N 必須 > 0" *)
  | NSet (n : Z)                   (* "✅ 已設定 N=n" *)
  | Toggled (noRepeat : bool)      (* "已切換不重複為：是/否" *)
  | NotSet                         (* "⚠️ 你還沒設定 N。" *)
  | NothingToDraw                  (* "⚠️ 沒有號碼可抽。" *)
  | Frame (x : Z)                  (* ">>> x" of the animation *)
  | Result (result : Z) (left : option nat)
                                   (* "🎉 中籤號碼：result", and
                                      "剩餘可抽： left" under no-repeat *)
  | Sorted (tmp : list Z)          (* the history, smallest first *)
  | NoneDrawn                      (* "（尚未抽出）" *)
  | ResetDone (n : Z) (left : option nat)
                                   (* "N=n / 可抽=left", "-" without no-repeat *)
  | InvalidOption.                 (* "無效選項。" *)

(** The error kinds of the design, and the message that reports each. *)
Inductive error := InvalidInput | DomainError | NotConfigured | EmptyPool.

Definition reports (m : msg) : option error :=
  match m with
  | MustBePositive => Some DomainError
  | NotSet => Some NotConfigured
  | NothingToDraw => Some EmptyPool
  | InvalidOption => Some InvalidInput
  | _ => None
  end.

(** [for (int i = 1; i <= N; i++) pool.push_back(i)], with [todo] rounds
    left. *)
Fixpoint push_from (todo : nat) (i : Z) (pool : list Z) : list Z :=
  match todo with
  | O => pool
  | S todo' => push_from todo' (i + 1) (pool ++ [i])
  end.

(** The lambda [reset_pool]: it does not look at [noRepeat]. *)
Definition reset_pool (st : range) : range :=
  if bool_decide (N st ≤ 0)
  then {| N := N st; noRepeat := noRepeat st; pool := []; history := [] |}
  else {| N := N st; noRepeat := noRepeat st;
          pool := push_from (Z.to_nat (N st)) 1 []; history := [] |}.

(** Insertion into a sorted list, for [sort(tmp.begin(), tmp.end())]. *)
Fixpoint sort_insert (x : Z) (l : list Z) : list Z :=
  match l with
  | [] => [x]
  | y :: l' => if bool_decide (x ≤ y) then x :: l else y :: sort_insert x l'
  end.

Definition sort (l : list Z) : list Z := foldr sort_insert [] l.

Section session.
Context `{UniformRng G}.

(** [animated_pick_number]: 32 frames, each showing a sample of
    [dist(1, N)], then the sample that is returned. *)
Definition animated_pick_number (N : Z) (g : G) : Z * list msg * G :=
  let '(frames, g1) := animate 32 1 N Frame g in
  let '(x, g2) := uniform 1 N g1 in
  (x, frames, g2).

(** One turn of the [while (true)] loop for a choice other than [Back]. *)
Definition step (o : op) (st : range) (g : G) : list msg * range * G :=
  match o with
  | Back => ([], st, g)
  | SetN n =>
      if bool_decide (n ≤ 0)
      then ([MustBePositive],
            {| N := 0; noRepeat := noRepeat st; pool := []; history := [] |}, g)
      else
        ([NSet n],
         reset_pool {| N := n; noRepeat := noRepeat st;
                       pool := pool st; history := history st |}, g)
  | Toggle =>
      let st1 := {| N := N st; noRepeat := negb (noRepeat st);
                    pool := pool st; history := history st |} in
      ([Toggled (noRepeat st1)], if noRepeat st1 then reset_pool st1 else st1, g)
  | Draw =>
      if bool_decide (N st ≤ 0) then ([NotSet], st, g)
      else if noRepeat st then
        if bool_decide (pool st = []) then ([NothingToDraw], st, g)
        else
          (* the animation runs on N, the pick comes from the pool *)
          let '(_, frames, g1) := animated_pick_number (N st) g in
          let '(idx, g2) := uniform 0 (Z.of_nat (length (pool st)) - 1) g1 in
          match pool st !! Z.to_nat idx with
          | Some result =>
              let pool1 := delete (Z.to_nat idx) (pool st) in
              (frames ++ [Result result (Some (length pool1))],
               {| N := N st; noRepeat := noRepeat st;
                  pool := pool1; history := history st ++ [result] |}, g2)
          | None =>
              (* [pool[idx]] outside the vector: undefined in C++, and
                 excluded by [uniform_range] *)
              (frames, st, g2)
          end
      else
        let '(result, frames, g1) := animated_pick_number (N st) g in
        (frames ++ [Result result None],
         {| N := N st; noRepeat := noRepeat st;
            pool := pool st; history := history st ++ [result] |}, g1)
  | View =>
      match history st with
      | [] => ([NoneDrawn], st, g)
      | _ => ([Sorted (sort (history st))], st, g)
      end
  | Reset =>
      let st1 := reset_pool st in
      ([ResetDone (N st1) (if noRepeat st1 then Some (length (pool st1)) else None)],
       st1, g)
  | Invalid => ([InvalidOption], st, g)
  end.

(** The session loop over the choices made: [Back] returns. *)
Fixpoint run (ops : list op) (st : range) (g : G) : list msg * range * G :=
  match ops with
  | [] => ([], st, g)
  | Back :: _ => ([], st, g)
  | o :: ops' =>
      let '(out1, st1, g1) := step o st g in
      let '(out2, st2, g2) := run ops' st1 g1 in
      (out1 ++ out2, st2, g2)
  end.

End session.

(** *** The store as the design describes it *)

(** Range conservation: [pool ∪ history = {1..N}] as sets, the two are
    disjoint, and no value occurs twice in [history]. *)
Definition conservation (st : range) : Prop :=
  (∀ x, x ∈ pool st ∨ x ∈ history st ↔ 1 ≤ x ≤ N st)
  ∧ (∀ x, x ∈ pool st → x ∉ history st)
  ∧ NoDup (history st).

(** Under no-repeat, [pool] followed by [history] is a rearrangement of
    [1..N]; nothing is asked of a store that allows repeats. *)
Definition balanced (st : range) : Prop :=
  noRepeat st = true → pool st ++ history st ≡ₚ seqZ 1 (N st).

(** What always holds of the locals, with or without no-repeat: [N] is not
    negative, nothing is kept while it is 0, the pool has no value twice,
    and pool and history only hold values of [1..N]. *)
Definition bounded (st : range) : Prop :=
  0 ≤ N st
  ∧ (N st = 0 → pool st = [] ∧ history st = [])
  ∧ NoDup (pool st)
  ∧ Forall (λ x, 1 ≤ x ≤ N st) (pool st)
  ∧ Forall (λ x, 1 ≤ x ≤ N st) (history st).

End RangeDraw.

(** ** The main menu *)

(** A choice of the main menu with what is chosen inside the mode before
    the 0 that leaves it: [Exit] is 0, [Other] any choice outside [0..2]. *)
Inductive choice :=
  | Exit
  | ModeA (ops : list ListDraw.op)
  | ModeB (ops : list RangeDraw.op)
  | Other.

(** What the program prints. *)
Inductive shown :=
  | InA (m : ListDraw.msg)
  | InB (m : RangeDraw.msg)
  | InvalidChoice              (* "無效選項，按任意鍵返回..." *)
  | Ended.                     (* "程式結束。" *)

Section main.
Context `{UniformRng G}.

(** The [while (true)] loop of [main]: each mode starts from its own fresh
    locals; the files and the generator go from one session to the next. *)
Fixpoint main_loop (cs : list choice) (w : ListDraw.world G)
    : list shown * ListDraw.world G :=
  match cs with
  | [] => ([], w)
  | Exit :: _ => ([], w)
  | ModeA ops :: cs' =>
      let '(out1, _, w1) := ListDraw.run ops ListDraw.fresh w in
      let '(out2, w2) := main_loop cs' w1 in
      ((InA <$> out1) ++ out2, w2)
  | ModeB ops :: cs' =>
      let '(out1, _, g1) := RangeDraw.run ops RangeDraw.fresh (ListDraw.rng w) in
      let '(out2, w2) :=
        main_loop cs' {| ListDraw.fs := ListDraw.fs w; ListDraw.rng := g1 |} in
      ((InB <$> out1) ++ out2, w2)
  | Other :: cs' =>
      let '(out2, w2) := main_loop cs' w in
      (InvalidChoice :: out2, w2)
  end.

(** [main], from the files found and the generator as seeded. *)
Definition main (cs : list choice) (w : ListDraw.world G)
    : list shown * ListDraw.world G :=
  let '(out, w1) := main_loop cs w in
  (out ++ [Ended], w1).

End main.

(** * Properties *)

(** ** Strings and the data helpers *)

Lemma string_app_assoc (a b c : string) : (a +:+ b) +:+ c = a +:+ b +:+ c.
Proof.
  induction a as [|x a IH]; [done|].
  rewrite /String.append -/String.append. by f_equal.
Qed.

Lemma string_app_nil_r (a : string) : a +:+ "" = a.
Proof.
  induction a as [|x a IH]; [done|].
  rewrite /String.append -/String.append. by f_equal.
Qed.

Lemma seen_elem (x : string) (out : list string) : seen x out = true ↔ x ∈ out.
Proof.
  induction out as [|y out IH]; simpl.
  - split; [done|]. by intros ?%elem_of_nil.
  - rewrite elem_of_cons. destruct (String.eqb_spec x y) as [->|Hne].
    + naive_solver.
    + rewrite IH. naive_solver.
Qed.

Lemma seen_not_elem (x : string) (out : list string) : seen x out = false ↔ x ∉ out.
Proof. rewrite -seen_elem. by destruct (seen x out). Qed.

Lemma dedup_from_app (out a b : list string) :
  dedup_from out (a ++ b) = dedup_from (dedup_from out a) b.
Proof. revert out. induction a as [|x a IH]; intros out; simpl; [done|apply IH]. Qed.

Lemma dedup_from_fresh (out v : list string) :
  NoDup (out ++ v) → dedup_from out v = out ++ v.
Proof.
  revert out. induction v as [|x v IH]; intros out Hnd; simpl.
  - by rewrite app_nil_r.
  - assert (seen x out = false) as ->.
    { apply seen_not_elem. apply NoDup_app in Hnd as (_ & Hdis & _).
      intros Hx. apply (Hdis x Hx). by left. }
    rewrite IH; rewrite -app_assoc; done.
Qed.

Lemma dedup_from_seen (out v : list string) :
  (∀ x, x ∈ v → x ∈ out) → dedup_from out v = out.
Proof.
  induction v as [|x v IH]; intros Hin; simpl; [done|].
  assert (seen x out = true) as ->.
  { apply seen_elem, Hin. by left. }
  apply IH. intros y Hy. apply Hin. by right.
Qed.

Lemma dedup_from_elem (out v : list string) (x : string) :
  x ∈ dedup_from out v ↔ x ∈ out ∨ x ∈ v.
Proof.
  revert out. induction v as [|y v IH]; intros out; simpl.
  - rewrite elem_of_nil. naive_solver.
  - rewrite IH elem_of_cons. destruct (seen y out) eqn:Hy.
    + apply seen_elem in Hy. naive_solver.
    + rewrite elem_of_app list_elem_of_singleton. naive_solver.
Qed.

Lemma dedup_from_NoDup (out v : list string) :
  NoDup out → NoDup (dedup_from out v).
Proof.
  revert out. induction v as [|y v IH]; intros out Hnd; simpl; [done|].
  apply IH. destruct (seen y out) eqn:Hy; [done|].
  apply seen_not_elem in Hy. apply NoDup_app. split_and!; [done| |apply NoDup_singleton].
  intros x Hx ->%list_elem_of_singleton. done.
Qed.

Lemma dedup_preserve_order_NoDup (v : list string) : NoDup (dedup_preserve_order v).
Proof. apply dedup_from_NoDup, NoDup_nil_2. Qed.

Lemma dedup_preserve_order_elem (v : list string) (x : string) :
  x ∈ dedup_preserve_order v ↔ x ∈ v.
Proof. rewrite /dedup_preserve_order dedup_from_elem elem_of_nil. naive_solver. Qed.

Lemma dedup_preserve_order_fixed (v : list string) :
  NoDup v → dedup_preserve_order v = v.
Proof. intros Hnd. by apply (dedup_from_fresh []). Qed.

(** Appending again what was appended before changes nothing once the
    duplicates are removed. *)
Lemma dedup_preserve_order_again (v names : list string) :
  dedup_preserve_order (dedup_preserve_order (v ++ names) ++ names)
  = dedup_preserve_order (v ++ names).
Proof.
  rewrite {1}/dedup_preserve_order dedup_from_app.
  rewrite -/(dedup_preserve_order (dedup_preserve_order (v ++ names))).
  rewrite (dedup_preserve_order_fixed _ (dedup_preserve_order_NoDup _)).
  apply dedup_from_seen. intros x Hx.
  apply dedup_preserve_order_elem, elem_of_app. by right.
Qed.

(** ** The random source *)

Section animation_facts.
Context `{UniformRng G} {msg : Type}.

Lemma animate_rng (n : nat) (lo hi : Z) (show : Z → msg) (g : G) :
  (animate n lo hi show g).2 = rng_skip n lo hi g.
Proof.
  revert g. induction n as [|n IH]; intros g; simpl; [done|].
  destruct (uniform lo hi g) as [x g1] eqn:Hu.
  specialize (IH g1). destruct (animate n lo hi show g1) as [frames g2].
  simpl in *. by rewrite IH.
Qed.

(** The animation prints one frame per round. *)
Lemma animate_length (n : nat) (lo hi : Z) (show : Z → msg) (g : G) :
  length (animate n lo hi show g).1 = n.
Proof.
  revert g. induction n as [|n IH]; intros g; simpl; [done|].
  destruct (uniform lo hi g) as [x g1] eqn:Hu.
  specialize (IH g1). destruct (animate n lo hi show g1) as [frames g2].
  simpl in *. by rewrite IH.
Qed.

Lemma rng_skip_S (n : nat) (lo hi : Z) (g : G) :
  rng_skip (S n) lo hi g = (uniform lo hi (rng_skip n lo hi g)).2.
Proof. revert g. induction n as [|n IH]; intros g; [done|]. apply (IH (uniform lo hi g).2). Qed.

End animation_facts.

Arguments rng_skip : simpl never.
Arguments animate : simpl never.

(** ** Mode A *)

Module ListDrawProofs.
Import ListDraw.

Lemma read_typed_accepted (typed all pool : list string) (added : nat) :
  read_typed typed all pool added
  = (all ++ accepted typed, pool ++ accepted typed, added + length (accepted typed)).
Proof.
  revert all pool added. induction typed as [|line typed IH]; intros all pool added; simpl.
  - by rewrite !app_nil_r Nat.add_0_r.
  - destruct (empty (trim line)); simpl.
    + by rewrite !app_nil_r Nat.add_0_r.
    + rewrite IH -!app_assoc /=. f_equal. lia.
Qed.

Lemma read_file_nonblank (lines all pool : list string) (added : nat) :
  read_file lines all pool added
  = (all ++ nonblank lines, pool ++ nonblank lines, added + length (nonblank lines)).
Proof.
  rewrite /nonblank.
  revert all pool added. induction lines as [|line lines IH]; intros all pool added; simpl.
  - by rewrite !app_nil_r Nat.add_0_r.
  - rewrite filter_cons. destruct (empty (trim line)) eqn:He.
    + repeat case_decide; done || apply IH.
    + repeat case_decide; try done.
      by rewrite IH -!app_assoc /= Nat.add_succ_r.
Qed.

Section session_facts.
Context `{UniformRng G}.

Lemma step_Input (typed : list string) (st : roster) (w : world G) :
  step (Input typed) st w
  = ([Added (length (accepted typed))
        (length (dedup_preserve_order (pool st ++ accepted typed)))],
     {| all := dedup_preserve_order (all st ++ accepted typed);
        pool := dedup_preserve_order (pool st ++ accepted typed);
        history := history st |}, w).
Proof. by rewrite /step read_typed_accepted. Qed.

Lemma step_Load (filename data : string) (st : roster) (w : world G) :
  open_in (fs w) filename = Some data →
  step (Load filename) st w
  = ([Loaded (length (nonblank (getlines "" data)))
        (length (dedup_preserve_order (pool st ++ nonblank (getlines "" data))))],
     {| all := dedup_preserve_order (all st ++ nonblank (getlines "" data));
        pool := dedup_preserve_order (pool st ++ nonblank (getlines "" data));
        history := history st |}, w).
Proof. intros Hopen. by rewrite /step Hopen read_file_nonblank. Qed.

(** The index returned by [animated_pick_index] is the sample taken after
    the 26 samples of the frames. *)
Lemma animated_pick_index_eq (pool : list string) (g : G) :
  let hi := (Z.of_nat (length pool) - 1)%Z in
  let u := uniform 0 hi (rng_skip 26 0 hi g) in
  animated_pick_index pool g
  = (u.1, (animate 26 0 hi (λ idx, Frame (pool !! Z.to_nat idx)) g).1, u.2).
Proof.
  intros hi u. rewrite /animated_pick_index -/hi.
  pose proof (animate_rng 26 0 hi (λ idx, Frame (pool !! Z.to_nat idx)) g) as Hg.
  destruct (animate 26 0 hi _ g) as [frames g1]. simpl in Hg. subst g1.
  rewrite -/u. by destruct u.
Qed.

(** The sampled index falls inside a pool that is not empty. *)
Lemma pick_in_pool {A} (pool : list A) (g : G) :
  pool ≠ [] →
  (Z.to_nat (uniform 0 (Z.of_nat (length pool) - 1) g).1 < length pool)%nat.
Proof.
  intros Hne. destruct pool as [|x pool]; [done|].
  pose proof (uniform_range 0 (Z.of_nat (length (x :: pool)) - 1) g) as Hr.
  simpl length in *. lia.
Qed.

Lemma step_Draw_nonempty (st : roster) (w : world G) :
  pool st ≠ [] →
  let hi := (Z.of_nat (length (pool st)) - 1)%Z in
  let u := uniform 0 hi (rng_skip 26 0 hi (rng w)) in
  let frames := (animate 26 0 hi (λ idx, Frame (pool st !! Z.to_nat idx)) (rng w)).1 in
  ∃ winner, pool st !! Z.to_nat u.1 = Some winner
    ∧ step Draw st w
      = (frames ++ [Winner winner (length (delete (Z.to_nat u.1) (pool st)))],
         {| all := all st; pool := delete (Z.to_nat u.1) (pool st);
            history := history st ++ [winner] |},
         {| fs := fs w; rng := u.2 |}).
Proof.
  intros Hne hi u frames.
  destruct (lookup_lt_is_Some_2 (pool st) (Z.to_nat u.1)) as [winner Hw].
  { by apply pick_in_pool. }
  exists winner. split; [done|].
  rewrite /step bool_decide_false; [done|].
  by rewrite animated_pick_index_eq -/hi -/u Hw.
Qed.

Lemma step_Draw_empty (st : roster) (w : world G) :
  pool st = [] → step Draw st w = ([NobodyToDraw], st, w).
Proof. intros Hnil. by rewrite /step bool_decide_true. Qed.

End session_facts.

(** The bytes sent by the loop of [save_history_to_file] are the records of
    the design, one after the other. *)
Lemma save_rows_records (i : nat) (history : list string) (sent : string) :
  save_rows i history sent
  = sent +:+ foldr String.append "" (imap (λ j, csv_record (i + j)) history).
Proof.
  revert i sent. induction history as [|name history IH]; intros i sent; simpl.
  - by rewrite string_app_nil_r.
  - rewrite IH /csv_record Nat.add_0_r !string_app_assoc. do 6 f_equal.
    apply imap_ext. intros j x _. rewrite /compose. do 2 f_equal. lia.
Qed.


Section session_claims.
Context `{UniformRng G}.

(** What does hold of [all] in every session: it never has duplicates. *)
Lemma step_all_NoDup (o : op) (st : roster) (w : world G) :
  NoDup (all st) → NoDup (all (step o st w).1.2).
Proof.
  intros Hnd. destruct o as [|typed|filename| |t| |out|]; simpl; try done.
  - rewrite read_typed_accepted. apply dedup_preserve_order_NoDup.
  - destruct (open_in (fs w) filename) as [data|]; [|done].
    rewrite read_file_nonblank. apply dedup_preserve_order_NoDup.
  - case_bool_decide as Hp; [done|].
    destruct (step_Draw_nonempty st w Hp) as (winner & _ & Heq).
    rewrite /step bool_decide_false in Heq; [done|]. by rewrite Heq.
  - repeat case_bool_decide; done.
Qed.

Lemma run_all_NoDup (ops : list op) (st : roster) (w : world G) :
  NoDup (all st) → NoDup (all (run ops st w).1.2).
Proof.
  revert st w. induction ops as [|o ops IH]; intros st w Hnd; [done|].
  assert (∀ r : list msg * roster * world G, NoDup (all r.1.2) →
    NoDup (all (let '(out1, st1, w1) := r in
                let '(out2, st2, w2) := run ops st1 w1 in
                (out1 ++ out2, st2, w2)).1.2)) as Hgo.
  { intros [[out1 st1] w1] Hnd1. specialize (IH st1 w1 Hnd1).
    by destruct (run ops st1 w1) as [[out2 st2] w2]. }
  pose proof (step_all_NoDup o st w Hnd) as Hstep.
  destruct o; try exact (Hgo _ Hstep); done.
Qed.

(** C1, at the input where the session leaves it: a name typed again after
    it was drawn goes back into [pool] while it stays in [history].  With
    the roster ["Ann"], one draw and "Ann" typed again, the three vectors
    all hold "Ann": [pool] and [history] meet and
    [|all| = 1 ≠ 2 = |pool| + |history|], whatever the generator. *)
Theorem retyped_drawn_name_breaks_conservation (w : world G) :
  (run [Input ["Ann"; ""]; Draw; Input ["Ann"; ""]] fresh w).1.2
  = {| all := ["Ann"]; pool := ["Ann"]; history := ["Ann"] |}
  ∧ ¬ conservation (run [Input ["Ann"; ""]; Draw; Input ["Ann"; ""]] fresh w).1.2.
Proof.
  assert ((run [Input ["Ann"; ""]; Draw; Input ["Ann"; ""]] fresh w).1.2
          = {| all := ["Ann"]; pool := ["Ann"]; history := ["Ann"] |}) as Heq.
  { set (st1 := {| all := ["Ann"]; pool := ["Ann"]; history := [] |}).
    rewrite /run step_Input.
    change (dedup_preserve_order (all fresh ++ accepted ["Ann"; ""])) with ["Ann"].
    change (dedup_preserve_order (pool fresh ++ accepted ["Ann"; ""])) with ["Ann"].
    change (history fresh) with (@nil string). fold st1.
    pose proof (step_Draw_nonempty st1 w ltac:(done)) as Hd. cbv zeta in Hd.
    pose proof (pick_in_pool (pool st1)
      (rng_skip 26 0 (Z.of_nat (length (pool st1)) - 1) (rng w)) ltac:(done)) as Hlt.
    remember (Z.to_nat (uniform 0 (Z.of_nat (length (pool st1)) - 1)
      (rng_skip 26 0 (Z.of_nat (length (pool st1)) - 1) (rng w))).1) as i eqn:Hi.
    assert (i = 0) as -> by (simpl in Hlt; lia).
    destruct Hd as (winner & Hw & ->).
    injection Hw as <-. by rewrite step_Input. }
  split; [done|]. rewrite Heq. intros (Hdis & _ & _).
  apply (Hdis "Ann"); simpl; by left.
Qed.

(** C2: [draw_from_roster].  On an empty [pool] the draw reports
    [EmptyPool]; otherwise the index is the sample of
    [uniform(0, |pool|-1)] that [animated_pick_index] returns, the winner
    is [pool[idx]], the pool loses exactly that position (what is before and
    what is after it stay in order) and the winner is appended to
    [history]. *)
Theorem draw_from_roster_spec (st : roster) (w : world G) :
  let hi := (Z.of_nat (length (pool st)) - 1)%Z in
  let u := uniform 0 hi (rng_skip 26 0 hi (rng w)) in
  let idx := Z.to_nat u.1 in
  match pool st with
  | [] =>
      step Draw st w = ([NobodyToDraw], st, w)
      ∧ reports NobodyToDraw = Some EmptyPool
  | _ =>
      ∃ winner frames,
        (0 ≤ u.1 ≤ hi)%Z
        ∧ pool st !! idx = Some winner
        ∧ step Draw st w
          = (frames ++ [Winner winner (length (pool st) - 1)],
             {| all := all st;
                pool := take idx (pool st) ++ drop (S idx) (pool st);
                history := history st ++ [winner] |},
             {| fs := fs w; rng := u.2 |})
  end.
Proof.
  intros hi u idx. destruct (pool st) as [|x pool0] eqn:Hp.
  - split; [|done]. by apply step_Draw_empty.
  - assert (pool st ≠ []) as Hne by (by rewrite Hp).
    destruct (step_Draw_nonempty st w Hne) as (winner & Hw & Heq).
    rewrite Hp in Hw, Heq. exists winner. eexists. split; [|split].
    + apply uniform_range. subst hi. simpl length. lia.
    + exact Hw.
    + rewrite Heq length_delete; [by eexists|]. by rewrite delete_take_drop.
Qed.

(** C4, at the input where the session leaves it: when the stream of the
    export does not open, nothing is written and the stores are unchanged,
    but the only message is the one of a finished export and no error is
    reported. *)
Theorem export_unopened_reports_success (st : roster) (w : world G) (out : string) :
  open_out (fs w) out = false →
  step (Export out) st w = ([Exported out], st, w)
  ∧ reports (Exported out) = None.
Proof.
  intros Hopen. split; [|done].
  rewrite /step /save_history_to_file Hopen. by destruct w.
Qed.

(** C7: typing the same lines twice gives the same [all] and [pool] as
    typing them once, and so does loading the same file twice; from the
    empty store ["  Alice "; "Alice"; "Bob"; "Alice"] gives
    [all = pool = ["Alice"; "Bob"]]. *)
Theorem add_many_idempotent (st : roster) (w : world G) (x : list string)
    (filename : string) :
  (all (step (Input x) (step (Input x) st w).1.2 w).1.2
     = all (step (Input x) st w).1.2
   ∧ pool (step (Input x) (step (Input x) st w).1.2 w).1.2
     = pool (step (Input x) st w).1.2)
  ∧ (all (step (Load filename) (step (Load filename) st w).1.2 w).1.2
       = all (step (Load filename) st w).1.2
     ∧ pool (step (Load filename) (step (Load filename) st w).1.2 w).1.2
       = pool (step (Load filename) st w).1.2)
  ∧ all (step (Input ["  Alice "; "Alice"; "Bob"; "Alice"]) fresh w).1.2
    = ["Alice"; "Bob"]
  ∧ pool (step (Input ["  Alice "; "Alice"; "Bob"; "Alice"]) fresh w).1.2
    = ["Alice"; "Bob"].
Proof.
  split_and!.
  - rewrite !step_Input /=. apply dedup_preserve_order_again.
  - rewrite !step_Input /=. apply dedup_preserve_order_again.
  - destruct (open_in (fs w) filename) as [data|] eqn:Hopen.
    + rewrite !(step_Load _ data) //=. apply dedup_preserve_order_again.
    + by rewrite /step !Hopen /= ?Hopen.
  - destruct (open_in (fs w) filename) as [data|] eqn:Hopen.
    + rewrite !(step_Load _ data) //=. apply dedup_preserve_order_again.
    + by rewrite /step !Hopen /= ?Hopen.
  - by rewrite step_Input.
  - by rewrite step_Input.
Qed.


End session_claims.

Lemma export_unopened_reports_success_witness :
  open_out {[ "/" := Locked ]} "/" = false
  ∧ step (Export "/") {| all := ["Ann"]; pool := []; history := ["Ann"] |}
      {| fs := {[ "/" := Locked ]}; rng := [5%Z] |}
    = ([Exported "/"], {| all := ["Ann"]; pool := []; history := ["Ann"] |},
       {| fs := {[ "/" := Locked ]}; rng := [5%Z] |}).
Proof.
  split; [reflexivity|].
  apply (export_unopened_reports_success
           {| all := ["Ann"]; pool := []; history := ["Ann"] |}
           {| fs := {[ "/" := Locked ]}; rng := [5%Z] |} "/").
  reflexivity.
Defined.


End ListDrawProofs.

(** ** Mode B *)

Module RangeDrawProofs.
Import RangeDraw.

Local Open Scope Z_scope.

Lemma push_from_seqZ (todo : nat) (i : Z) (pool : list Z) :
  push_from todo i pool = pool ++ seqZ i (Z.of_nat todo).
Proof.
  revert i pool. induction todo as [|todo IH]; intros i pool.
  - by rewrite /= app_nil_r.
  - rewrite /= IH -app_assoc. f_equal.
    rewrite (seqZ_cons i (Z.of_nat (S todo))); [lia|].
    simpl. do 2 f_equal; lia.
Qed.

(** [reset_pool] leaves [1..N] in the pool and nothing in the history,
    whatever [noRepeat] is. *)
Lemma reset_pool_eq (st : range) :
  reset_pool st
  = {| N := N st; noRepeat := noRepeat st; pool := seqZ 1 (N st); history := [] |}.
Proof.
  rewrite /reset_pool. case_bool_decide as Hn.
  - f_equal. rewrite /seqZ. by replace (Z.to_nat (N st)) with 0%nat by lia.
  - f_equal. rewrite push_from_seqZ /=. f_equal. lia.
Qed.

Section session_facts.
Context `{UniformRng G}.

(** The number returned by [animated_pick_number] is the sample taken after
    the 32 samples of the frames. *)
Lemma animated_pick_number_eq (n : Z) (g : G) :
  let u := uniform 1 n (rng_skip 32 1 n g) in
  animated_pick_number n g = (u.1, (animate 32 1 n Frame g).1, u.2).
Proof.
  intros u. rewrite /animated_pick_number.
  pose proof (animate_rng 32 1 n Frame g) as Hg.
  destruct (animate 32 1 n Frame g) as [frames g1]. simpl in Hg. subst g1.
  rewrite -/u. by destruct u.
Qed.

Lemma step_Draw_unset (st : range) (g : G) :
  N st ≤ 0 → step Draw st g = ([NotSet], st, g).
Proof. intros Hn. by rewrite /step bool_decide_true. Qed.

Lemma step_Draw_exhausted (st : range) (g : G) :
  0 < N st → noRepeat st = true → pool st = [] →
  step Draw st g = ([NothingToDraw], st, g).
Proof.
  intros Hn Hnr Hp. rewrite /step bool_decide_false; [lia|].
  by rewrite Hnr bool_decide_true.
Qed.

Lemma step_Draw_no_repeat (st : range) (g : G) :
  0 < N st → noRepeat st = true → pool st ≠ [] →
  let hi := Z.of_nat (length (pool st)) - 1 in
  let u := uniform 0 hi (rng_skip 33 1 (N st) g) in
  ∃ result, pool st !! Z.to_nat u.1 = Some result
    ∧ step Draw st g
      = ((animate 32 1 (N st) Frame g).1
           ++ [Result result (Some (length (delete (Z.to_nat u.1) (pool st))))],
         {| N := N st; noRepeat := noRepeat st;
            pool := delete (Z.to_nat u.1) (pool st);
            history := history st ++ [result] |},
         u.2).
Proof.
  intros Hn Hnr Hp hi u.
  destruct (lookup_lt_is_Some_2 (pool st) (Z.to_nat u.1)) as [result Hr].
  { by apply ListDrawProofs.pick_in_pool. }
  exists result. split; [done|].
  rewrite /step bool_decide_false; [lia|].
  rewrite Hnr bool_decide_false; [done|].
  rewrite animated_pick_number_eq. cbv beta iota zeta.
  rewrite -rng_skip_S -/hi -/u.
  destruct u as [idx g2] eqn:Hu. cbv beta iota zeta. simpl fst in Hr. by rewrite Hr.
Qed.

Lemma step_Draw_repeat (st : range) (g : G) :
  0 < N st → noRepeat st = false →
  let u := uniform 1 (N st) (rng_skip 32 1 (N st) g) in
  step Draw st g
  = ((animate 32 1 (N st) Frame g).1 ++ [Result u.1 None],
     {| N := N st; noRepeat := noRepeat st;
        pool := pool st; history := history st ++ [u.1] |},
     u.2).
Proof.
  intros Hn Hnr u. rewrite /step bool_decide_false; [lia|].
  by rewrite Hnr animated_pick_number_eq.
Qed.

Lemma step_balanced (o : op) (st : range) (g : G) :
  balanced st → balanced (step o st g).1.2.
Proof.
  intros Hb. destruct o as [|n| | | | |].
  - done.
  - simpl. case_bool_decide; simpl; [by intros _|].
    rewrite reset_pool_eq /=. intros _. by rewrite /= app_nil_r.
  - simpl. destruct (noRepeat st); simpl; [by intros ?|].
    rewrite reset_pool_eq /=. intros _. by rewrite /= app_nil_r.
  - destruct (decide (N st ≤ 0)) as [Hn|Hn]; [by rewrite step_Draw_unset|].
    destruct (noRepeat st) eqn:Hnr.
    + destruct (decide (pool st = [])) as [Hp|Hp].
      { rewrite step_Draw_exhausted //. lia. }
      destruct (step_Draw_no_repeat st g) as (result & Hr & Heq); [lia|done|done|].
      rewrite Heq /=. intros _.
      rewrite -(Hb Hnr) app_assoc -Permutation_cons_append /=.
      rewrite app_comm_cons. f_equiv. symmetry. by apply delete_Permutation.
    + rewrite step_Draw_repeat; [lia|done|]. rewrite /balanced /= Hnr. by intros ?.
  - simpl. by destruct (history st).
  - simpl. rewrite reset_pool_eq /=. intros _. by rewrite /= app_nil_r.
  - done.
Qed.

Lemma run_balanced (ops : list op) (st : range) (g : G) :
  balanced st → balanced (run ops st g).1.2.
Proof.
  revert st g. induction ops as [|o ops IH]; intros st g Hb; [done|].
  assert (∀ r : list msg * range * G, balanced r.1.2 →
    balanced (let '(out1, st1, g1) := r in
              let '(out2, st2, g2) := run ops st1 g1 in
              (out1 ++ out2, st2, g2)).1.2) as Hgo.
  { intros [[out1 st1] g1] Hb1. specialize (IH st1 g1 Hb1).
    by destruct (run ops st1 g1) as [[out2 st2] g2]. }
  pose proof (step_balanced o st g Hb) as Hstep.
  destruct o; try exact (Hgo _ Hstep); done.
Qed.

Lemma balanced_conservation (st : range) :
  noRepeat st = true → balanced st → conservation st.
Proof.
  intros Hnr Hb. specialize (Hb Hnr).
  assert (NoDup (pool st ++ history st)) as Hnd.
  { rewrite Hb. apply NoDup_seqZ. }
  apply NoDup_app in Hnd as (_ & Hdis & Hh). split_and!; [|done|done].
  intros x. rewrite -elem_of_app Hb elem_of_seqZ. lia.
Qed.

(** C3 as the session has it: switching no-repeat from true to false
    changes the flag and nothing else; [history] (and [pool], and [N]) are
    what they were. *)
Theorem toggle_off_keeps_history (st : range) (g : G) :
  noRepeat st = true →
  step Toggle st g
  = ([Toggled false],
     {| N := N st; noRepeat := false; pool := pool st; history := history st |}, g).
Proof. intros Hnr. by rewrite /step /= Hnr. Qed.

(** C5: in every state reached from the start of the session in which
    no-repeat is on, [pool ∪ history = {1..N}] as sets, [pool] and
    [history] are disjoint and [history] has no value twice. *)
Theorem range_conservation_no_repeat (ops : list op) (g : G) :
  noRepeat (run ops fresh g).1.2 = true → conservation (run ops fresh g).1.2.
Proof.
  intros Hnr. apply balanced_conservation; [done|].
  apply run_balanced. by intros _.
Qed.

(** C9: [set_N].  For [n ≤ 0] the session reports [DomainError] and leaves
    [N = 0], [pool = []], [history = []] with [noRepeat] as it was; for
    [n > 0] it sets [N := n] and runs [reset_pool], which leaves
    [pool = [1..n]] and [history = []], again with [noRepeat] as it was. *)
Theorem set_N_spec (n : Z) (st : range) (g : G) :
  if bool_decide (n ≤ 0) then
    step (SetN n) st g
    = ([MustBePositive],
       {| N := 0; noRepeat := noRepeat st; pool := []; history := [] |}, g)
    ∧ reports MustBePositive = Some DomainError
  else
    step (SetN n) st g
    = ([NSet n],
       reset_pool {| N := n; noRepeat := noRepeat st;
                     pool := pool st; history := history st |}, g)
    ∧ reset_pool {| N := n; noRepeat := noRepeat st;
                    pool := pool st; history := history st |}
      = {| N := n; noRepeat := noRepeat st; pool := seqZ 1 n; history := [] |}
    ∧ reports (NSet n) = None.
Proof.
  rewrite /step. case_bool_decide; [done|]. by rewrite reset_pool_eq.
Qed.

End session_facts.

(** C3, at the input that refutes it: with [N = 3] and 3 drawn, switching
    no-repeat off leaves 3 in [history]. *)
Lemma toggle_off_clears_history_counterexample :
  noRepeat (run [SetN 3; Draw; Toggle] fresh (replicate 33 0 ++ [2])).1.2 = false
  ∧ history (run [SetN 3; Draw; Toggle] fresh (replicate 33 0 ++ [2])).1.2 = [3]
  ∧ history (run [SetN 3; Draw; Toggle] fresh (replicate 33 0 ++ [2])).1.2 ≠ [].
Proof. by vm_compute. Qed.

Lemma toggle_off_keeps_history_witness :
  noRepeat {| N := 3; noRepeat := true; pool := [1; 2]; history := [3] |} = true
  ∧ step Toggle {| N := 3; noRepeat := true; pool := [1; 2]; history := [3] |} [7]
    = ([Toggled false],
       {| N := 3; noRepeat := false; pool := [1; 2]; history := [3] |}, [7]).
Proof.
  split; [reflexivity|].
  apply (toggle_off_keeps_history
           {| N := 3; noRepeat := true; pool := [1; 2]; history := [3] |} [7]).
  reflexivity.
Defined.

Lemma range_conservation_no_repeat_witness :
  noRepeat (run [SetN 3; Draw] fresh (replicate 33 0 ++ [2])).1.2 = true
  ∧ conservation (run [SetN 3; Draw] fresh (replicate 33 0 ++ [2])).1.2.
Proof.
  split; [reflexivity|].
  apply (range_conservation_no_repeat [SetN 3; Draw] (replicate 33 0 ++ [2])).
  reflexivity.
Defined.

End RangeDrawProofs.

(** ** Both draws *)

Section counting.
Context `{UniformRng G}.

Lemma counting_uniform (lo hi : Z) (g : G) (c : nat) :
  (uniform lo hi (g, c)).2 = ((uniform lo hi g).2, S c).
Proof. done. Qed.

Lemma counting_skip (n : nat) (lo hi : Z) (g : G) (c : nat) :
  rng_skip n lo hi (g, c) = (rng_skip n lo hi g, c + n).
Proof.
  revert g c. induction n as [|n IH]; intros g c.
  - by rewrite /rng_skip Nat.add_0_r.
  - rewrite /rng_skip -/rng_skip counting_uniform IH. f_equal. lia.
Qed.

End counting.

Section draws.
Context `{UniformRng G}.

(** C6: both draws are all or nothing.  A roster draw on an empty pool, a
    range draw without [N], and a no-repeat range draw on an empty pool
    report their error and leave store and generator as they were.  Every
    other draw removes one position from the pool and appends the element
    that stood there to the history, or, where repeats are allowed and the
    pool plays no part, appends the sampled number of [1..N] to the
    history. *)
Theorem draws_are_atomic (a : ListDraw.roster) (w : ListDraw.world G)
    (b : RangeDraw.range) (g : G) :
  match ListDraw.pool a with
  | [] =>
      ListDraw.step ListDraw.Draw a w = ([ListDraw.NobodyToDraw], a, w)
      ∧ ListDraw.reports ListDraw.NobodyToDraw = Some ListDraw.EmptyPool
  | _ =>
      ∃ idx winner,
        ListDraw.pool a !! idx = Some winner
        ∧ (ListDraw.step ListDraw.Draw a w).1.2
          = {| ListDraw.all := ListDraw.all a;
               ListDraw.pool := delete idx (ListDraw.pool a);
               ListDraw.history := ListDraw.history a ++ [winner] |}
  end
  ∧ if bool_decide (RangeDraw.N b ≤ 0)%Z then
      RangeDraw.step RangeDraw.Draw b g = ([RangeDraw.NotSet], b, g)
      ∧ RangeDraw.reports RangeDraw.NotSet = Some RangeDraw.NotConfigured
    else if RangeDraw.noRepeat b then
      match RangeDraw.pool b with
      | [] =>
          RangeDraw.step RangeDraw.Draw b g = ([RangeDraw.NothingToDraw], b, g)
          ∧ RangeDraw.reports RangeDraw.NothingToDraw = Some RangeDraw.EmptyPool
      | _ =>
          ∃ idx result,
            RangeDraw.pool b !! idx = Some result
            ∧ (RangeDraw.step RangeDraw.Draw b g).1.2
              = {| RangeDraw.N := RangeDraw.N b;
                   RangeDraw.noRepeat := true;
                   RangeDraw.pool := delete idx (RangeDraw.pool b);
                   RangeDraw.history := RangeDraw.history b ++ [result] |}
      end
    else
      ∃ result,
        (1 ≤ result ≤ RangeDraw.N b)%Z
        ∧ (RangeDraw.step RangeDraw.Draw b g).1.2
          = {| RangeDraw.N := RangeDraw.N b;
               RangeDraw.noRepeat := false;
               RangeDraw.pool := RangeDraw.pool b;
               RangeDraw.history := RangeDraw.history b ++ [result] |}.
Proof.
  split.
  - destruct (ListDraw.pool a) as [|x p] eqn:Hp.
    + split; [|done]. by apply ListDrawProofs.step_Draw_empty.
    + destruct (ListDrawProofs.step_Draw_nonempty a w) as (winner & Hw & Heq).
      { by rewrite Hp. }
      eexists _, winner. rewrite -Hp. split; [exact Hw|]. by rewrite Heq.
  - case_bool_decide as Hn.
    { split; [|done]. by apply RangeDrawProofs.step_Draw_unset. }
    destruct (RangeDraw.noRepeat b) eqn:Hnr.
    + destruct (RangeDraw.pool b) as [|x p] eqn:Hp.
      * split; [|done]. apply RangeDrawProofs.step_Draw_exhausted; [lia|done..].
      * destruct (RangeDrawProofs.step_Draw_no_repeat b g) as (result & Hr & Heq);
          [lia|done|by rewrite Hp|].
        eexists _, result. rewrite -Hp. split; [exact Hr|]. by rewrite Heq /= Hnr.
    + eexists. split; [|by rewrite RangeDrawProofs.step_Draw_repeat /= ?Hnr //; lia].
      apply uniform_range. lia.
Qed.

(** C10: the animation and the pick draw from one generator.  A roster
    draw takes the 26 samples of [uniform(0, |pool|-1)] of its frames and
    picks the winner with the 27th; a no-repeat range draw takes 33 samples
    of [uniform(1, N)], 32 shown and one returned and dropped, before the
    one sample of [uniform(0, |pool|-1)] that picks the result: 27 and 34
    samples in all.  So under a fixed seed the outcome is not the one the
    first sample would give: with the seed below the roster ["Ann"; "Bob";
    "Cid"] yields "Cid", and the range of 3 yields 3, where the first
    sample points at "Bob" and at 2. *)
Theorem draw_shares_rng_with_animation (a : ListDraw.roster) (w : ListDraw.world G)
    (b : RangeDraw.range) (g : G) :
  ListDraw.pool a ≠ [] →
  (0 < RangeDraw.N b)%Z → RangeDraw.noRepeat b = true → RangeDraw.pool b ≠ [] →
  let hiA := (Z.of_nat (length (ListDraw.pool a)) - 1)%Z in
  let hiB := (Z.of_nat (length (RangeDraw.pool b)) - 1)%Z in
  let seed := 1%Z :: replicate 32 0%Z ++ [2%Z] in
  (∃ winner,
     ListDraw.pool a
       !! Z.to_nat (uniform 0 hiA (rng_skip 26 0 hiA (ListDraw.rng w))).1 = Some winner
     ∧ ListDraw.history (ListDraw.step ListDraw.Draw a w).1.2
       = ListDraw.history a ++ [winner]
     ∧ ListDraw.rng (ListDraw.step ListDraw.Draw a w).2
       = rng_skip 27 0 hiA (ListDraw.rng w)
     ∧ (ListDraw.rng
          (ListDraw.step ListDraw.Draw a
             {| ListDraw.fs := ListDraw.fs w;
                ListDraw.rng := (ListDraw.rng w, 0%nat) |}).2).2 = 27%nat)
  ∧ (∃ result,
       RangeDraw.pool b
         !! Z.to_nat (uniform 0 hiB (rng_skip 33 1 (RangeDraw.N b) g)).1 = Some result
       ∧ RangeDraw.history (RangeDraw.step RangeDraw.Draw b g).1.2
         = RangeDraw.history b ++ [result]
       ∧ (RangeDraw.step RangeDraw.Draw b g).2
         = (uniform 0 hiB (rng_skip 33 1 (RangeDraw.N b) g)).2
       ∧ (RangeDraw.step RangeDraw.Draw b (g, 0%nat)).2.2 = 34%nat)
  ∧ (ListDraw.history
       (ListDraw.step ListDraw.Draw
          {| ListDraw.all := ["Ann"; "Bob"; "Cid"];
             ListDraw.pool := ["Ann"; "Bob"; "Cid"];
             ListDraw.history := [] |}
          {| ListDraw.fs := ∅; ListDraw.rng := 1%Z :: replicate 25 0%Z ++ [2%Z] |}).1.2
     = ["Cid"]
     ∧ ["Ann"; "Bob"; "Cid"]
         !! Z.to_nat (uniform 0 2 (1%Z :: replicate 25 0%Z ++ [2%Z])).1 = Some "Bob")
  ∧ (RangeDraw.history
       (RangeDraw.step RangeDraw.Draw
          {| RangeDraw.N := 3; RangeDraw.noRepeat := true;
             RangeDraw.pool := [1; 2; 3]%Z; RangeDraw.history := [] |} seed).1.2
     = [3%Z]
     ∧ [1; 2; 3]%Z !! Z.to_nat (uniform 0 2 seed).1 = Some 2%Z).
Proof.
  intros Ha Hn Hnr Hb hiA hiB seed. split_and!; [| |done..].
  - destruct (ListDrawProofs.step_Draw_nonempty a w Ha) as (winner & Hw & Heq).
    exists winner. split_and!; [done|by rewrite Heq|by rewrite Heq rng_skip_S|].
    destruct (ListDrawProofs.step_Draw_nonempty a
      {| ListDraw.fs := ListDraw.fs w; ListDraw.rng := (ListDraw.rng w, 0%nat) |} Ha)
      as (winner' & _ & ->).
    by rewrite /= ?counting_skip.
  - destruct (RangeDrawProofs.step_Draw_no_repeat b g Hn Hnr Hb) as (result & Hr & Heq).
    exists result. split_and!; [done|by rewrite Heq|by rewrite Heq|].
    destruct (RangeDrawProofs.step_Draw_no_repeat b (g, 0%nat) Hn Hnr Hb)
      as (result' & _ & ->).
    by rewrite /= ?counting_skip.
Qed.

End draws.

Lemma draw_shares_rng_with_animation_witness :
  (ListDraw.pool {| ListDraw.all := ["Ann"; "Bob"]; ListDraw.pool := ["Ann"; "Bob"];
                    ListDraw.history := [] |} ≠ []
   ∧ (0 < RangeDraw.N {| RangeDraw.N := 2; RangeDraw.noRepeat := true;
                         RangeDraw.pool := [1; 2]%Z; RangeDraw.history := [] |})%Z
   ∧ RangeDraw.noRepeat {| RangeDraw.N := 2; RangeDraw.noRepeat := true;
                           RangeDraw.pool := [1; 2]%Z; RangeDraw.history := [] |} = true
   ∧ RangeDraw.pool {| RangeDraw.N := 2; RangeDraw.noRepeat := true;
                       RangeDraw.pool := [1; 2]%Z; RangeDraw.history := [] |} ≠ [])
  ∧ (ListDraw.rng
       (ListDraw.step ListDraw.Draw
          {| ListDraw.all := ["Ann"; "Bob"]; ListDraw.pool := ["Ann"; "Bob"];
             ListDraw.history := [] |}
          {| ListDraw.fs := ∅; ListDraw.rng := ([1%Z], 0%nat) |}).2).2 = 27%nat
  ∧ (RangeDraw.step RangeDraw.Draw
       {| RangeDraw.N := 2; RangeDraw.noRepeat := true;
          RangeDraw.pool := [1; 2]%Z; RangeDraw.history := [] |} ([1%Z], 0%nat)).2.2
    = 34%nat.
Proof.
  assert (ListDraw.pool {| ListDraw.all := ["Ann"; "Bob"];
                           ListDraw.pool := ["Ann"; "Bob"];
                           ListDraw.history := [] |} ≠ []) as Ha by (simpl; discriminate).
  assert (RangeDraw.pool {| RangeDraw.N := 2; RangeDraw.noRepeat := true;
                            RangeDraw.pool := [1; 2]%Z;
                            RangeDraw.history := [] |} ≠ []) as Hb by (simpl; discriminate).
  split; [split_and!; [exact Ha|reflexivity|reflexivity|exact Hb]|].
  destruct (draw_shares_rng_with_animation
              {| ListDraw.all := ["Ann"; "Bob"]; ListDraw.pool := ["Ann"; "Bob"];
                 ListDraw.history := [] |}
              {| ListDraw.fs := ∅; ListDraw.rng := [1%Z] |}
              {| RangeDraw.N := 2; RangeDraw.noRepeat := true;
                 RangeDraw.pool := [1; 2]%Z; RangeDraw.history := [] |}
              [1%Z] Ha eq_refl eq_refl Hb)
    as ((_ & _ & _ & _ & HcA) & (_ & _ & _ & _ & HcB) & _).
  split; [exact HcA|exact HcB].
Defined.

(** * Further properties of the helpers *)

(** ** [trim] *)

Lemma find_first_lstrip_None (s : string) :
  find_first_not_of s = None ↔ lstrip s = "".
Proof.
  induction s as [|c s IH]; simpl; [done|].
  destruct (is_blank c); [|done].
  rewrite -IH. by destruct (find_first_not_of s).
Qed.

Lemma find_first_lstrip (s : string) (b m : nat) :
  find_first_not_of s = Some b → substring b m s = substring 0 m (lstrip s).
Proof.
  revert b. induction s as [|c s IH]; intros b; simpl; [done|].
  destruct (is_blank c); [|by intros [= <-]].
  destruct (find_first_not_of s) as [b'|]; [|done].
  intros [= <-]. by apply IH.
Qed.

Lemma find_last_lstrip (s : string) (b e : nat) :
  find_first_not_of s = Some b → find_last_not_of s = Some e →
  find_last_not_of (lstrip s) = Some (e - b) ∧ b ≤ e.
Proof.
  revert b e. induction s as [|c s IH]; intros b e; simpl; [done|].
  destruct (is_blank c) eqn:Hc.
  - destruct (find_first_not_of s) as [b'|]; [|done]. intros [= <-].
    destruct (find_last_not_of s) as [e'|]; [|done]. intros [= <-].
    destruct (IH b' e' eq_refl eq_refl) as [-> ?]. split; [done|lia].
  - intros [= <-] He. simpl. rewrite Hc. rewrite Nat.sub_0_r. split; [done|lia].
Qed.

Lemma find_last_rstrip_None (s : string) :
  find_last_not_of s = None ↔ rstrip s = "".
Proof.
  induction s as [|c s IH]; simpl; [done|].
  destruct (find_last_not_of s) as [e|], (rstrip s) as [|c' r].
  - destruct IH as [_ IH]. by specialize (IH eq_refl).
  - done.
  - by destruct (is_blank c).
  - destruct IH as [IH _]. by specialize (IH eq_refl).
Qed.

Lemma find_last_rstrip (s : string) (e : nat) :
  find_last_not_of s = Some e → substring 0 (S e) s = rstrip s.
Proof.
  revert e. induction s as [|c s IH]; intros e; [done|].
  rewrite /find_last_not_of -/find_last_not_of /rstrip -/rstrip.
  destruct (find_last_not_of s) as [e'|] eqn:He.
  - intros [= <-]. rewrite /substring -/substring (IH e' eq_refl).
    destruct (rstrip s) eqn:Hr; [|done].
    apply find_last_rstrip_None in Hr. congruence.
  - apply find_last_rstrip_None in He. rewrite He.
    destruct (is_blank c); [done|]. intros [= <-]. simpl. by destruct s.
Qed.

Lemma find_last_of_first (s : string) (b : nat) :
  find_first_not_of s = Some b → is_Some (find_last_not_of s).
Proof.
  revert b. induction s as [|c s IH]; intros b; simpl; [done|].
  destruct (is_blank c).
  - destruct (find_first_not_of s) as [b'|]; [|done]. intros _.
    destruct (IH b' eq_refl) as [e ->]. by eexists.
  - intros _. destruct (find_last_not_of s); by eexists.
Qed.

(** [trim] takes the blanks off the front, then off the back. *)
Lemma trim_strip (s : string) : trim s = rstrip (lstrip s).
Proof.
  rewrite /trim. destruct (find_first_not_of s) as [b|] eqn:Hb.
  - destruct (find_last_of_first s b Hb) as [e He]. rewrite He.
    destruct (find_last_lstrip s b e Hb He) as [Hl Hbe].
    rewrite (find_first_lstrip s b _ Hb) -(find_last_rstrip _ _ Hl).
    f_equal. lia.
  - apply find_first_lstrip_None in Hb. by rewrite Hb.
Qed.

Lemma lstrip_split (s : string) :
  ∃ pre, s = pre +:+ lstrip s ∧ all_blank pre = true.
Proof.
  induction s as [|c s (pre & IH & Hpre)]; [by exists ""|]. simpl.
  destruct (is_blank c) eqn:Hc; [|by exists ""].
  exists (String c pre). split; [|by rewrite /= Hc].
  rewrite /String.append -/String.append. by f_equal.
Qed.

Lemma rstrip_split (s : string) :
  ∃ post, s = rstrip s +:+ post ∧ all_blank post = true.
Proof.
  induction s as [|c s (post & IH & Hpost)]; [by exists ""|]. simpl.
  destruct (rstrip s) as [|c' r] eqn:Hr.
  - destruct (is_blank c) eqn:Hc.
    + exists (String c post). rewrite /= Hc Hpost. split; [|done]. by rewrite {1}IH.
    + exists post. split; [|done].
      rewrite /String.append -/String.append. by rewrite {1}IH.
  - exists post. split; [|done].
    rewrite /String.append -/String.append. by rewrite {1}IH.
Qed.

Lemma lstrip_head (s : string) :
  lstrip s = "" ∨ ∃ c t, lstrip s = String c t ∧ is_blank c = false.
Proof.
  induction s as [|c s IH]; simpl; [by left|].
  destruct (is_blank c) eqn:Hc; [done|]. right. by exists c, s.
Qed.

Lemma lstrip_fixed (c : ascii) (t : string) :
  is_blank c = false → lstrip (String c t) = String c t.
Proof. intros Hc. by rewrite /= Hc. Qed.

Lemma rstrip_head (c : ascii) (t : string) :
  is_blank c = false → ∃ r, rstrip (String c t) = String c r.
Proof. intros Hc. simpl. rewrite Hc. destruct (rstrip t); by eexists. Qed.

Lemma rstrip_last (s : string) :
  rstrip s = ""
  ∨ ∃ c, String.get (String.length (rstrip s) - 1) (rstrip s) = Some c
         ∧ is_blank c = false.
Proof.
  induction s as [|c s IH]; simpl; [by left|].
  destruct (rstrip s) as [|c' r] eqn:Hr.
  - destruct (is_blank c) eqn:Hc; [by left|]. right. by exists c.
  - right. destruct IH as [?|(d & Hd & Hb)]; [done|].
    exists d. split; [|done]. simpl in *. by rewrite Nat.sub_0_r in Hd |- *.
Qed.

Lemma rstrip_cons_fixed (c : ascii) (r : string) :
  rstrip r = r → r ≠ "" → rstrip (String c r) = String c r.
Proof. intros Hr Hne. cbn [rstrip]. rewrite Hr. by destruct r. Qed.

Lemma rstrip_idemp (s : string) : rstrip (rstrip s) = rstrip s.
Proof.
  induction s as [|c s IH]; simpl; [done|].
  destruct (rstrip s) as [|c' r] eqn:Hr.
  - destruct (is_blank c) eqn:Hc; [done|]. by rewrite /= Hc.
  - by apply rstrip_cons_fixed.
Qed.

Lemma lstrip_empty (s : string) : lstrip s = "" ↔ all_blank s = true.
Proof.
  induction s as [|c s IH]; simpl; [done|].
  destruct (is_blank c); [done|]. split; done.
Qed.

Lemma rstrip_empty (s : string) : rstrip s = "" ↔ all_blank s = true.
Proof.
  induction s as [|c s IH]; simpl; [done|].
  destruct (rstrip s) as [|c' r].
  - destruct (is_blank c); simpl; [|done]. split; [intros _; by apply IH|done].
  - destruct (is_blank c); simpl; [|done]. split; [done|]. intros Hs. by apply IH in Hs.
Qed.

Lemma trim_head (s : string) :
  trim s = "" ∨ ∃ c t, trim s = String c t ∧ is_blank c = false.
Proof.
  rewrite trim_strip. destruct (lstrip_head s) as [->|(c & t & -> & Hc)]; [by left|].
  right. destruct (rstrip_head c t Hc) as [r ->]. by exists c, r.
Qed.

Lemma trim_idemp (s : string) : trim (trim s) = trim s.
Proof.
  destruct (trim_head s) as [->|(c & t & Heq & Hc)]; [done|].
  rewrite (trim_strip (trim s)) Heq lstrip_fixed // -Heq trim_strip.
  apply rstrip_idemp.
Qed.

Lemma trim_ends (s : string) :
  trim s = ""
  ∨ ∃ c d,
      String.get 0 (trim s) = Some c ∧ is_blank c = false
      ∧ String.get (String.length (trim s) - 1) (trim s) = Some d
      ∧ is_blank d = false.
Proof.
  destruct (trim_head s) as [?|(c & t & Heq & Hc)]; [by left|]. right.
  destruct (rstrip_last (lstrip s)) as [Hr|(d & Hd & Hb)].
  { rewrite trim_strip Hr in Heq. done. }
  exists c, d. rewrite -trim_strip in Hd. split_and!; try done. by rewrite Heq.
Qed.

(** X1: [trim] only cuts at the two ends, and only blanks, and it cuts them
    all: the line is the trimmed line between two runs of blanks, and the
    trimmed line is empty or has a character that is not a blank at its
    first and at its last position. *)
Theorem trim_cuts_blank_ends (s : string) :
  (∃ pre post,
     s = pre +:+ trim s +:+ post ∧ all_blank pre = true ∧ all_blank post = true)
  ∧ (trim s = ""
     ∨ ∃ c d,
         String.get 0 (trim s) = Some c ∧ is_blank c = false
         ∧ String.get (String.length (trim s) - 1) (trim s) = Some d
         ∧ is_blank d = false).
Proof.
  split; [|apply trim_ends].
  destruct (lstrip_split s) as (pre & Hs & Hpre).
  destruct (rstrip_split (lstrip s)) as (post & Hl & Hpost).
  exists pre, post. split; [|done]. by rewrite trim_strip -Hl.
Qed.

(** X2: Trimming twice is trimming once. *)
Theorem trim_idempotent (s : string) : trim (trim s) = trim s.
Proof. apply trim_idemp. Qed.

(** X3: [trim] returns the empty string exactly for the lines made of blanks
    only (the empty line among them). *)
Theorem trim_empty_iff_blank (s : string) :
  empty (trim s) = true ↔ all_blank s = true.
Proof.
  rewrite trim_strip. destruct (lstrip_head s) as [Hl|(c & t & Hl & Hc)].
  - rewrite Hl /=. split; [intros _|done]. by apply lstrip_empty.
  - rewrite Hl. destruct (rstrip_head c t Hc) as [r ->]. simpl.
    split; [done|]. intros Hs%lstrip_empty. congruence.
Qed.

(** ** [getlines] *)

Lemma no_nl_app (a b : string) : no_nl (a +:+ b) = no_nl a && no_nl b.
Proof.
  induction a as [|c a IH]; [done|].
  rewrite /String.append -/String.append /= IH. by rewrite andb_assoc.
Qed.

Lemma getlines_no_nl (cur data line : string) :
  no_nl cur = true → line ∈ getlines cur data → no_nl line = true.
Proof.
  revert cur. induction data as [|c data IH]; intros cur Hcur; simpl.
  - destruct (empty cur); [by intros ?%elem_of_nil|].
    by intros ->%list_elem_of_singleton.
  - destruct (Ascii.eqb_spec c "010") as [->|Hc].
    + intros [->|Hin]%elem_of_cons; [done|]. by apply (IH "").
    + apply IH. rewrite no_nl_app Hcur /=.
      destruct (Ascii.eqb_spec c "010"); done.
Qed.

Lemma terminated_app (a : string) (c : ascii) (b : string) :
  terminated (a +:+ String c b) = terminated (String c b).
Proof.
  induction a as [|x a IH]; [done|].
  rewrite /String.append -/String.append.
  change (terminated (String x (a +:+ String c b)))
    with (match a +:+ String c b with
          | EmptyString => (x =? "010")%char
          | String _ _ => terminated (a +:+ String c b)
          end).
  rewrite IH. by destruct a.
Qed.

Lemma terminated_no_nl (s : string) :
  no_nl s = true → empty s = false → terminated s = false.
Proof.
  induction s as [|c s IH]; [done|]. simpl.
  destruct (Ascii.eqb_spec c "010") as [->|Hc]; [done|]. simpl.
  intros Hs _. destruct s as [|c' s]; [done|]. by apply IH.
Qed.

Lemma unlines_getlines (cur data : string) :
  no_nl cur = true →
  unlines (getlines cur data)
  = (cur +:+ data) +:+ (if terminated (cur +:+ data) then "" else nl).
Proof.
  revert cur. induction data as [|c data IH]; intros cur Hcur.
  - rewrite string_app_nil_r /=. destruct cur as [|x cur]; [done|].
    by rewrite terminated_no_nl //= ?string_app_nil_r.
  - simpl. destruct (Ascii.eqb_spec c "010") as [->|Hc].
    + rewrite /unlines /= -/(unlines _) (IH "") // terminated_app.
      change ("" +:+ data) with data.
      rewrite string_app_assoc. f_equal. by destruct data.
    + rewrite IH.
      { rewrite no_nl_app Hcur /=. by destruct (Ascii.eqb_spec c "010"). }
      by rewrite !string_app_assoc.
Qed.

(** X4: The [getline] loop loses nothing: no line it reads holds a line feed,
    and written back with a line feed after each, the lines are the file,
    plus the line feed its last line lacked if it lacked one; the empty
    lines in between are kept. *)
Theorem getlines_keeps_the_text (data : string) :
  Forall (λ line, no_nl line = true) (getlines "" data)
  ∧ unlines (getlines "" data) = data +:+ (if terminated data then "" else nl).
Proof.
  split; [|by rewrite unlines_getlines].
  apply Forall_forall. intros line. by apply getlines_no_nl.
Qed.

(** ** [dedup_preserve_order] *)

Lemma dedup_from_prefix (out v : list string) : out `prefix_of` dedup_from out v.
Proof.
  revert out. induction v as [|x v IH]; intros out; simpl; [done|].
  destruct (seen x out); [apply IH|].
  etrans; [|apply IH]. by apply prefix_app_r.
Qed.

Lemma dedup_from_sublist (out v : list string) :
  dedup_from out v `sublist_of` out ++ v.
Proof.
  revert out. induction v as [|x v IH]; intros out; simpl.
  - by rewrite app_nil_r.
  - destruct (seen x out).
    + etrans; [apply IH|]. apply sublist_app; [done|]. by apply sublist_cons.
    + etrans; [apply IH|]. by rewrite -app_assoc.
Qed.

(** X5: The result of [dedup_preserve_order] has no duplicates and exactly the
    elements of the vector it was given; on its own result it changes
    nothing. *)
Theorem dedup_preserve_order_is_a_dedup (v : list string) :
  NoDup (dedup_preserve_order v)
  ∧ (∀ x, x ∈ dedup_preserve_order v ↔ x ∈ v)
  ∧ dedup_preserve_order (dedup_preserve_order v) = dedup_preserve_order v.
Proof.
  split_and!.
  - apply dedup_preserve_order_NoDup.
  - apply dedup_preserve_order_elem.
  - apply dedup_preserve_order_fixed, dedup_preserve_order_NoDup.
Qed.

(** X6: [dedup_preserve_order] keeps the order and the first occurrences: the
    result is a subsequence of the vector, a vector without duplicates is
    returned as it is, and what is appended to a vector never moves or
    removes what the vector already gave. *)
Theorem dedup_preserve_order_keeps_order (v w : list string) :
  dedup_preserve_order v `sublist_of` v
  ∧ (NoDup v → dedup_preserve_order v = v)
  ∧ dedup_preserve_order v `prefix_of` dedup_preserve_order (v ++ w).
Proof.
  split_and!.
  - apply (dedup_from_sublist []).
  - apply dedup_preserve_order_fixed.
  - rewrite /dedup_preserve_order dedup_from_app. apply dedup_from_prefix.
Qed.

(** ** [save_history_to_file] *)

Lemma string_app_inv_head (a b c : string) : a +:+ b = a +:+ c → b = c.
Proof.
  induction a as [|x a IH]; [done|].
  rewrite /String.append -/String.append. intros [= ?]. by apply IH.
Qed.

Lemma split_at_line_feed (n1 n2 r1 r2 : string) :
  no_nl n1 = true → no_nl n2 = true →
  n1 +:+ nl +:+ r1 = n2 +:+ nl +:+ r2 → n1 = n2 ∧ r1 = r2.
Proof.
  revert n2. induction n1 as [|c n1 IH]; intros [|d n2]; simpl.
  - intros _ _. rewrite /String.append /=. by intros [= ->].
  - destruct (Ascii.eqb_spec d "010") as [->|Hd]; [done|].
    intros _ _. rewrite /String.append -/String.append /=. by intros [= <-].
  - destruct (Ascii.eqb_spec c "010") as [->|Hc]; [done|].
    intros _ _. rewrite /String.append -/String.append /=. by intros [= ->].
  - destruct (Ascii.eqb_spec c "010") as [->|Hc]; [done|].
    destruct (Ascii.eqb_spec d "010") as [->|Hd]; [done|]. simpl.
    intros H1 H2. rewrite /String.append -/String.append.
    intros [= -> Heq]. destruct (IH n2 H1 H2 Heq) as [-> ->]. done.
Qed.

Lemma csv_rows_cons (i : nat) (name : string) (history : list string) :
  foldr String.append "" (imap (λ j, ListDraw.csv_record (i + j)) (name :: history))
  = ListDraw.csv_record i name
    +:+ foldr String.append "" (imap (λ j, ListDraw.csv_record (S i + j)) history).
Proof.
  simpl. rewrite Nat.add_0_r. f_equal. f_equal.
  apply imap_ext. intros j x _. rewrite /compose /ListDraw.csv_record.
  do 2 f_equal. lia.
Qed.

Lemma csv_rows_inj (i : nat) (h1 h2 : list string) :
  Forall (λ name, no_nl name = true) h1 →
  Forall (λ name, no_nl name = true) h2 →
  foldr String.append "" (imap (λ j, ListDraw.csv_record (i + j)) h1)
  = foldr String.append "" (imap (λ j, ListDraw.csv_record (i + j)) h2) →
  h1 = h2.
Proof.
  assert (∀ n x r, "" ≠ ListDraw.csv_record n x +:+ r) as Hne.
  { intros n x r. rewrite /ListDraw.csv_record !string_app_assoc.
    destruct (to_string (n + 1)); rewrite /String.append -/String.append; done. }
  revert i h2. induction h1 as [|n1 h1 IH]; intros i [|n2 h2] Hh1 Hh2.
  - done.
  - rewrite csv_rows_cons. intros Heq. by apply Hne in Heq.
  - rewrite csv_rows_cons. intros Heq. symmetry in Heq. by apply Hne in Heq.
  - rewrite !csv_rows_cons /ListDraw.csv_record !string_app_assoc.
    intros Heq. apply string_app_inv_head in Heq.
    change ("," +:+ ?a) with (String "," a) in Heq. injection Heq as Heq.
    apply Forall_cons in Hh1 as [Hn1 Hh1]. apply Forall_cons in Hh2 as [Hn2 Hh2].
    apply split_at_line_feed in Heq as [-> Heq]; [|done..].
    f_equal. by apply (IH (S i)).
Qed.

(** X7: Histories whose names hold no line feed are exported to the same bytes
    only when they are the same history: without any escaping, the file
    still tells the draws apart, commas in names included. *)
Theorem csv_tells_histories_apart (h1 h2 : list string) :
  Forall (λ name, no_nl name = true) h1 →
  Forall (λ name, no_nl name = true) h2 →
  save_rows 0 h1 "" = save_rows 0 h2 "" → h1 = h2.
Proof.
  intros Hh1 Hh2. rewrite !ListDrawProofs.save_rows_records.
  change ("" +:+ ?a) with a. by apply csv_rows_inj.
Qed.

Lemma csv_tells_histories_apart_witness :
  Forall (λ name, no_nl name = true) ["Ann, Lee"; "Bob"]
  ∧ save_rows 0 ["Ann, Lee"; "Bob"] "" = save_rows 0 ["Ann, Lee"; "Bob"] ""
  ∧ ["Ann, Lee"; "Bob"] = ["Ann, Lee"; "Bob"].
Proof.
  assert (Forall (λ name, no_nl name = true) ["Ann, Lee"; "Bob"]) as Hh.
  { repeat constructor. }
  split; [exact Hh|]. split; [reflexivity|].
  apply (csv_tells_histories_apart ["Ann, Lee"; "Bob"] ["Ann, Lee"; "Bob"] Hh Hh).
  reflexivity.
Defined.

(** [save_history_to_file] changes no path but the one it is given, and
    saving the same history there again changes nothing. *)
Lemma save_history_touches_one_path (history : list string) (filename : string)
    (fs : gmap string node) :
  delete filename (save_history_to_file history filename fs) = delete filename fs
  ∧ save_history_to_file history filename (save_history_to_file history filename fs)
    = save_history_to_file history filename fs.
Proof.
  rewrite /save_history_to_file. destruct (open_out fs filename) eqn:Hopen.
  - split; [by rewrite delete_insert_eq|].
    by rewrite /open_out lookup_insert_eq insert_insert_eq.
  - by rewrite Hopen.
Qed.

(** ** The presenter's helpers *)

Local Open Scope Z_scope.

Lemma string_length_app (a b : string) :
  String.length (a +:+ b) = (String.length a + String.length b)%nat.
Proof.
  induction a as [|x a IH]; [done|].
  rewrite /String.append -/String.append /=. by rewrite IH.
Qed.

Lemma string_length_replicate (n : nat) (c : ascii) :
  String.length (string_of_list_ascii (replicate n c)) = n.
Proof. induction n as [|n IH]; [done|]. by rewrite /= IH. Qed.

Lemma string_of_count_Some (n : Z) (c : ascii) :
  0 ≤ n →
  string_of_count n c = Some (string_of_list_ascii (replicate (Z.to_nat n) c)).
Proof. intros Hn. rewrite /string_of_count bool_decide_false; [lia|done]. Qed.

Lemma box_sides_length (todo : nat) (i x y : Z) (inner : string) :
  length (box_sides todo i x y inner) = todo.
Proof. revert i. induction todo as [|todo IH]; intros i; [done|]. by rewrite /= IH. Qed.

Lemma box_sides_lookup (todo : nat) (i x y : Z) (inner : string) (k : nat) :
  (k < todo)%nat →
  box_sides todo i x y inner !! k
  = Some {| col := x; row := y + i + Z.of_nat k; text := "|" +:+ inner +:+ "|" |}.
Proof.
  revert i k. induction todo as [|todo IH]; intros i [|k] Hk; try lia; simpl.
  - do 2 f_equal. lia.
  - rewrite IH; [lia|]. do 2 f_equal. lia.
Qed.

Lemma print_centered_col (x y w : Z) (s : string) :
  0 ≤ w →
  col (print_centered x y w s)
  = x + 1 + Z.max 0 ((w - Z.of_nat (String.length s)) `div` 2).
Proof.
  intros Hw. rewrite /print_centered /clampi /=. f_equal.
  repeat case_bool_decide; Z.to_euclidean_division_equations; lia.
Qed.

(** X8: [clampi] with [lo ≤ hi] returns the value of [lo..hi] nearest to [v]:
    [v] itself when it lies inside, the bound it passed otherwise. *)
Theorem clampi_clamps (v lo hi : Z) :
  lo ≤ hi → clampi v lo hi = Z.max lo (Z.min v hi) ∧ lo ≤ clampi v lo hi ≤ hi.
Proof. intros Hle. rewrite /clampi. repeat case_bool_decide; lia. Qed.

Lemma clampi_clamps_witness :
  (0 ≤ 70) ∧ clampi (-3) 0 70 = Z.max 0 (Z.min (-3) 70) ∧ 0 ≤ clampi (-3) 0 70 ≤ 70.
Proof. split; [lia|]. apply (clampi_clamps (-3) 0 70). lia. Defined.

(** X9: [print_centered] writes [s] on row [y], starting [pad] columns after
    column [x + 1], where [pad] is half of what [s] leaves of the width [w],
    rounded down, and 0 when [s] is as wide as [w] or wider: the text never
    starts left of column [x + 1]. *)
Theorem print_centered_placement (x y w : Z) (s : string) :
  0 ≤ w →
  print_centered x y w s
  = {| col := x + 1 + Z.max 0 ((w - Z.of_nat (String.length s)) `div` 2);
       row := y; text := s |}.
Proof.
  intros Hw. rewrite -(print_centered_col x y w s Hw). done.
Qed.

Lemma print_centered_placement_witness :
  (0 ≤ 70)
  ∧ print_centered 4 3 70 "Draw" = {| col := 4 + 1 + 33; row := 3; text := "Draw" |}.
Proof. split; [lia|]. apply (print_centered_placement 4 3 70 "Draw"). lia. Defined.

(** X10: [draw_box] with [w ≥ 2] and [h ≥ 2] writes [h] rows, one on each of the
    rows [y .. y + h - 1], all starting in column [x] and all [w] bytes
    wide; with [w < 2] the border string cannot be built and nothing is
    returned. *)
Theorem draw_box_rows (x y w h : Z) :
  2 ≤ w → 2 ≤ h →
  (∃ rows, draw_box x y w h = Some rows
     ∧ length rows = Z.to_nat h
     ∧ ∀ i p, rows !! i = Some p →
         col p = x ∧ row p = y + Z.of_nat i
         ∧ String.length (text p) = Z.to_nat w)
  ∧ ∀ w', w' < 2 → draw_box x y w' h = None.
Proof.
  intros Hw Hh. split.
  - rewrite /draw_box !string_of_count_Some; [lia..|]. simpl.
    eexists. split; [done|]. split.
    { rewrite /= length_app box_sides_length /=. lia. }
    intros [|i] p; simpl.
    { intros [= <-]. simpl.
      rewrite !string_length_app string_length_replicate /=. split_and!; lia. }
    destruct (decide (i < Z.to_nat (h - 2))%nat) as [Hi|Hi].
    + rewrite lookup_app_l; [by rewrite box_sides_length|].
      rewrite box_sides_lookup //. intros [= <-]. simpl.
      rewrite !string_length_app string_length_replicate /=. split_and!; lia.
    + rewrite lookup_app_r box_sides_length; [lia|].
      destruct (i - Z.to_nat (h - 2))%nat as [|j] eqn:Hj; [|done].
      intros [= <-]. simpl.
      rewrite !string_length_app string_length_replicate /=. split_and!; lia.
  - intros w' Hw'. rewrite /draw_box /string_of_count bool_decide_true; [lia|done].
Qed.

Lemma draw_box_rows_witness :
  (2 ≤ 70 ∧ 2 ≤ 9)
  ∧ ∃ rows, draw_box 4 2 70 9 = Some rows ∧ length rows = 9%nat.
Proof.
  split; [lia|].
  destruct (draw_box_rows 4 2 70 9 ltac:(lia) ltac:(lia)) as [(rows & Hr & Hl & _) _].
  exists rows. split; [exact Hr|exact Hl].
Defined.

(** X11: [ui_status_bar] with a right label writes, after the rule, [left], a
    run of blanks and [right]; the blanks take [right] to byte 60 of the
    line, the width of the rule, or to one blank after [left] when [left]
    is longer than 59 bytes. *)
Theorem ui_status_bar_right_column (left right : string) :
  empty right = false →
  ∃ gap,
    ui_status_bar left right = Some (status_rule +:+ left +:+ gap +:+ right +:+ nl)
    ∧ all_blank gap = true
    ∧ (String.length left + String.length gap
       = Nat.max 60 (String.length left + 1))%nat.
Proof.
  intros Hr. rewrite /ui_status_bar Hr /=.
  set (spaces := if bool_decide (60 - Z.of_nat (String.length left) < 1) then 1
                 else 60 - Z.of_nat (String.length left)).
  assert (1 ≤ spaces) as Hs by (subst spaces; case_bool_decide; lia).
  rewrite string_of_count_Some; [lia|]. simpl. eexists. split; [done|]. split.
  - generalize (Z.to_nat spaces). intros n. induction n as [|n IH]; [done|]. by rewrite /= IH.
  - rewrite string_length_replicate. subst spaces. case_bool_decide; lia.
Qed.

Lemma ui_status_bar_right_column_witness :
  empty "A" = false
  ∧ ∃ gap, ui_status_bar "N=3" "A" = Some (status_rule +:+ "N=3" +:+ gap +:+ "A" +:+ nl)
           ∧ (String.length "N=3" + String.length gap = 60)%nat.
Proof.
  split; [reflexivity|].
  destruct (ui_status_bar_right_column "N=3" "A" eq_refl) as (gap & Hg & _ & Hl).
  exists gap. split; [exact Hg|exact Hl].
Defined.

(** X12: [ui_header] always draws: the 70 by 9 box at column 4, row 2, then the
    banner, the title and, unless it is empty, the subtitle.  Each text is
    on a row strictly between the borders and starts right of the left
    border; a text of at most 66 bytes also ends left of the right border
    (column 73). *)
Theorem ui_header_layout (title subtitle : string) :
  ∃ box texts,
    ui_header title subtitle = Some (box ++ texts)
    ∧ draw_box 4 2 70 9 = Some box
    ∧ text <$> texts
      = "文字模式抽籤系統  Draw System" :: title
        :: (if empty subtitle then [] else [subtitle])
    ∧ Forall (λ p, 4 < col p ∧ 2 < row p < 10
                   ∧ ((String.length (text p) ≤ 66)%nat
                      → col p + Z.of_nat (String.length (text p)) ≤ 73)) texts.
Proof.
  assert (∀ y s, 2 < y < 10 →
    let p := print_centered 4 y 70 s in
    4 < col p ∧ 2 < row p < 10
    ∧ ((String.length (text p) ≤ 66)%nat
       → col p + Z.of_nat (String.length (text p)) ≤ 73)) as Hp.
  { intros y s Hy p. subst p. rewrite print_centered_placement; [lia|]. simpl.
    split; [lia|]. split; [lia|]. intros Hlen.
    pose proof (Z.mul_div_le (70 - Z.of_nat (String.length s)) 2). lia. }
  rewrite /ui_header.
  destruct (draw_box 4 2 70 9) as [box|] eqn:Hbox; [|by vm_compute in Hbox].
  simpl. eexists box, _. split; [done|]. split; [done|]. split.
  - by destruct (empty subtitle).
  - destruct (empty subtitle); repeat (apply Forall_cons; split);
      try apply Forall_nil_2; apply Hp; lia.
Qed.

Local Close Scope Z_scope.

(** ** The animation *)

Section animation_more.
Context `{UniformRng G} {msg : Type}.

Lemma animate_S (n : nat) (lo hi : Z) (show : Z → msg) (g : G) :
  animate (S n) lo hi show g
  = (let '(x, g1) := uniform lo hi g in
     let '(frames, g2) := animate n lo hi show g1 in
     (show x :: frames, g2)).
Proof. done. Qed.

(** Every frame shows a sample of the requested range. *)
Lemma animate_frames (n : nat) (lo hi : Z) (show : Z → msg) (g : G) :
  (lo ≤ hi)%Z →
  Forall (λ m, ∃ x, (lo ≤ x ≤ hi)%Z ∧ m = show x) (animate n lo hi show g).1.
Proof.
  intros Hle. revert g. induction n as [|n IH]; intros g; [done|].
  rewrite animate_S. pose proof (uniform_range lo hi g Hle) as Hx.
  destruct (uniform lo hi g) as [x g1]. specialize (IH g1).
  destruct (animate n lo hi show g1) as [frames g2]. simpl in *.
  apply Forall_cons. split; [by exists x|done].
Qed.

End animation_more.

(** * Further properties of mode A *)

Module ListDrawMore.
Import ListDraw ListDrawProofs.

Lemma accepted_clean (typed : list string) : Forall clean (accepted typed).
Proof.
  induction typed as [|line typed IH]; simpl; [done|].
  destruct (empty (trim line)) eqn:He; [done|].
  apply Forall_cons. split; [|done]. split; [done|apply trim_idemp].
Qed.

Lemma nonblank_clean (lines : list string) : Forall clean (nonblank lines).
Proof.
  apply Forall_forall. intros x [Hx (line & -> & _)%list_elem_of_fmap]%list_elem_of_filter.
  split; [done|apply trim_idemp].
Qed.

Lemma accepted_of_clean (names : list string) :
  Forall clean names → accepted names = names.
Proof.
  induction 1 as [|name names [He Ht] _ IH]; simpl; [done|].
  by rewrite Ht He IH.
Qed.

Lemma brings_clean `{UniformRng G} (o : op) (w : world G) : Forall clean (brings o w).
Proof.
  destruct o; simpl; try done.
  - apply accepted_clean.
  - destruct (open_in _ _); [apply nonblank_clean|done].
Qed.

Section session_more.
Context `{UniformRng G}.

(** What a turn can do to the store: nothing, add the names the choice
    brings, move one name from [pool] to [history], or reset. *)
Lemma step_cases (o : op) (st : roster) (w : world G) :
  (step o st w).1.2 = st
  ∨ (step o st w).1.2
    = {| all := dedup_preserve_order (all st ++ brings o w);
         pool := dedup_preserve_order (pool st ++ brings o w);
         history := history st |}
  ∨ (∃ idx winner,
       pool st !! idx = Some winner
       ∧ (step o st w).1.2
         = {| all := all st; pool := delete idx (pool st);
              history := history st ++ [winner] |})
  ∨ (step o st w).1.2 = {| all := all st; pool := all st; history := [] |}.
Proof.
  destruct o as [|typed|filename| |t| |out|].
  - by left.
  - right; left. by rewrite step_Input.
  - destruct (open_in (fs w) filename) as [data|] eqn:Hopen.
    + right; left. by rewrite (step_Load _ data) //= Hopen.
    + left. by rewrite /= Hopen.
  - destruct (decide (pool st = [])) as [Hp|Hp].
    + left. by rewrite step_Draw_empty.
    + right; right; left.
      destruct (step_Draw_nonempty st w Hp) as (winner & Hw & Heq).
      eexists _, winner. split; [exact Hw|]. by rewrite Heq.
  - left. simpl. by repeat case_bool_decide.
  - by right; right; right.
  - by left.
  - by left.
Qed.

Lemma run_invariant (P : roster → Prop) :
  (∀ o st (w : world G), P st → P (step o st w).1.2) →
  ∀ ops st (w : world G), P st → P (run ops st w).1.2.
Proof.
  intros Hstep ops. induction ops as [|o ops IH]; intros st w HP; [done|].
  assert (∀ r : list msg * roster * world G, P r.1.2 →
    P (let '(out1, st1, w1) := r in
       let '(out2, st2, w2) := run ops st1 w1 in
       (out1 ++ out2, st2, w2)).1.2) as Hgo.
  { intros [[out1 st1] w1] HP1. specialize (IH st1 w1 HP1).
    by destruct (run ops st1 w1) as [[out2 st2] w2]. }
  pose proof (Hstep o st w HP) as HP1.
  destruct o; try exact (Hgo _ HP1); done.
Qed.

Lemma step_well_formed (o : op) (st : roster) (w : world G) :
  well_formed st → well_formed (step o st w).1.2.
Proof.
  intros (Ha & Hp & Hpa & Hha).
  destruct (step_cases o st w) as [->|[->|[(idx & winner & Hw & ->)| ->]]].
  - done.
  - split_and!; simpl; try apply dedup_preserve_order_NoDup.
    + intros x. rewrite !dedup_preserve_order_elem !elem_of_app. naive_solver.
    + intros x Hx. rewrite dedup_preserve_order_elem elem_of_app. naive_solver.
  - split_and!; simpl; [done| | |].
    + eapply sublist_NoDup; [done|apply sublist_delete].
    + intros x Hx%list_elem_of_delete_inv. by apply Hpa.
    + intros x [Hx| ->%list_elem_of_singleton]%elem_of_app; [by apply Hha|].
      by eapply Hpa, list_elem_of_lookup_2.
  - split_and!; simpl; try done. by intros x ?%elem_of_nil.
Qed.

Lemma step_all_clean (o : op) (st : roster) (w : world G) :
  Forall clean (all st) → Forall clean (all (step o st w).1.2).
Proof.
  intros Hc.
  destruct (step_cases o st w) as [->|[->|[(idx & winner & Hw & ->)| ->]]]; try done.
  simpl. apply Forall_forall. intros x.
  rewrite dedup_preserve_order_elem elem_of_app. intros [Hx|Hx].
  - by eapply Forall_forall in Hc.
  - by eapply Forall_forall in Hx; [|apply brings_clean].
Qed.

Lemma step_all_prefix (o : op) (st : roster) (w : world G) :
  NoDup (all st) → all st `prefix_of` all (step o st w).1.2.
Proof.
  intros Ha.
  destruct (step_cases o st w) as [->|[->|[(idx & winner & Hw & ->)| ->]]]; try done.
  simpl. rewrite /dedup_preserve_order dedup_from_app.
  rewrite -/(dedup_preserve_order (all st)) dedup_preserve_order_fixed //.
  apply dedup_from_prefix.
Qed.

Lemma partitioned_conservation (st : roster) : partitioned st → conservation st.
Proof.
  intros [Ha Hperm]. assert (NoDup (pool st ++ history st)) as Hnd by by rewrite Hperm.
  apply NoDup_app in Hnd as (_ & Hdis & _). split_and!; [done| |done].
  by rewrite -Hperm length_app.
Qed.

Lemma step_partitioned (o : op) (st : roster) (w : world G) :
  partitioned st → (∀ x, x ∈ brings o w → x ∉ history st) →
  partitioned (step o st w).1.2.
Proof.
  intros [Ha Hperm] Hnew.
  assert (NoDup (pool st ++ history st)) as Hnd by by rewrite Hperm.
  apply NoDup_app in Hnd as (Hp & Hdis & Hh).
  destruct (step_cases o st w) as [->|[->|[(idx & winner & Hw & ->)| ->]]].
  - done.
  - split; simpl; [apply dedup_preserve_order_NoDup|].
    apply NoDup_Permutation.
    + apply NoDup_app. split_and!; [apply dedup_preserve_order_NoDup| |done].
      intros x. rewrite dedup_preserve_order_elem elem_of_app. naive_solver.
    + apply dedup_preserve_order_NoDup.
    + intros x. rewrite elem_of_app !dedup_preserve_order_elem !elem_of_app.
      rewrite -Hperm elem_of_app. naive_solver.
  - split; simpl; [done|]. rewrite -Hperm app_assoc -Permutation_cons_append.
    rewrite app_comm_cons. f_equiv. symmetry. by apply delete_Permutation.
  - split; simpl; [done|]. by rewrite app_nil_r.
Qed.

Lemma run_cons_Draw (ops : list op) (st : roster) (w : world G) :
  run (Draw :: ops) st w
  = (let '(out1, st1, w1) := step Draw st w in
     let '(out2, st2, w2) := run ops st1 w1 in
     (out1 ++ out2, st2, w2)).
Proof. done. Qed.

Lemma draws_exhaust (n : nat) (st : roster) (w : world G) :
  length (pool st) = n →
  all (run (replicate n Draw) st w).1.2 = all st
  ∧ pool (run (replicate n Draw) st w).1.2 = []
  ∧ ∃ drawn, history (run (replicate n Draw) st w).1.2 = history st ++ drawn
             ∧ drawn ≡ₚ pool st.
Proof.
  revert st w. induction n as [|n IH]; intros st w Hlen.
  - apply nil_length_inv in Hlen. simpl. split_and!; [done..|].
    exists []. by rewrite app_nil_r Hlen.
  - assert (pool st ≠ []) as Hne by (by destruct (pool st)).
    destruct (step_Draw_nonempty st w Hne) as (winner & Hw & Heq).
    change (replicate (S n) Draw) with (Draw :: replicate n Draw).
    rewrite run_cons_Draw Heq.
    match goal with |- context [run _ ?st1 ?w1] =>
      destruct (IH st1 w1) as (Ha & Hp & drawn & Hh & Hd);
      [ simpl; rewrite length_delete; [by eexists|lia] |];
      destruct (run (replicate n Draw) st1 w1) as [[out2 st2] w2]
    end.
    simpl in *. split_and!; [done..|].
    exists (winner :: drawn). split; [by rewrite Hh -app_assoc|].
    rewrite Hd. symmetry. by apply delete_Permutation.
Qed.

Lemma run_invariant_on (Q : op → bool) (P : roster → world G → Prop) :
  (∀ o st w, Q o = true → P st w → P (step o st w).1.2 (step o st w).2) →
  ∀ ops st w, forallb Q ops = true → P st w → P (run ops st w).1.2 (run ops st w).2.
Proof.
  intros Hstep ops. induction ops as [|o ops IH]; intros st w HQ HP; [done|].
  simpl in HQ. apply andb_prop in HQ as [Ho Hops].
  assert (∀ r : list msg * roster * world G, P r.1.2 r.2 →
    let r' := (let '(out1, st1, w1) := r in
               let '(out2, st2, w2) := run ops st1 w1 in
               (out1 ++ out2, st2, w2)) in
    P r'.1.2 r'.2) as Hgo.
  { intros [[out1 st1] w1] HP1. specialize (IH st1 w1 Hops HP1).
    by destruct (run ops st1 w1) as [[out2 st2] w2]. }
  pose proof (Hstep o st w Ho HP) as HP1.
  destruct o; try exact (Hgo _ HP1); done.
Qed.

Lemma step_fs (o : op) (st : roster) (w : world G) :
  exports o = false → fs (step o st w).2 = fs w.
Proof.
  destruct o as [|typed|filename| |t| |out|]; try done; intros _.
  - by rewrite step_Input.
  - simpl. destruct (open_in (fs w) filename); [|done]. by rewrite read_file_nonblank.
  - destruct (decide (pool st = [])) as [Hp|Hp]; [by rewrite step_Draw_empty|].
    by destruct (step_Draw_nonempty st w Hp) as (winner & _ & ->).
  - simpl. by repeat case_bool_decide.
Qed.

Lemma step_rng (o : op) (st : roster) (w : world G) :
  draws o = false → rng (step o st w).2 = rng w.
Proof.
  destruct o as [|typed|filename| |t| |out|]; try done; intros _.
  - by rewrite step_Input.
  - simpl. destruct (open_in (fs w) filename); [|done]. by rewrite read_file_nonblank.
  - simpl. by repeat case_bool_decide.
Qed.

(** X13: In every state of a session [all] and [pool] have no duplicates, and
    every name of [pool] and of [history] is a name of [all]. *)
Theorem roster_stays_well_formed (ops : list op) (w : world G) :
  NoDup (all (run ops fresh w).1.2)
  ∧ NoDup (pool (run ops fresh w).1.2)
  ∧ (∀ x, x ∈ pool (run ops fresh w).1.2 → x ∈ all (run ops fresh w).1.2)
  ∧ (∀ x, x ∈ history (run ops fresh w).1.2 → x ∈ all (run ops fresh w).1.2).
Proof.
  apply (run_invariant well_formed); [apply step_well_formed|].
  split_and!; try apply NoDup_nil_2; by intros x ?%elem_of_nil.
Qed.

(** X14: Every name a session stores, in [all], [pool] or [history], is not
    empty and has no blank at either end: it is its own [trim]. *)
Theorem roster_names_are_clean (ops : list op) (w : world G) :
  Forall clean (all (run ops fresh w).1.2)
  ∧ Forall clean (pool (run ops fresh w).1.2)
  ∧ Forall clean (history (run ops fresh w).1.2).
Proof.
  assert (Forall clean (all (run ops fresh w).1.2)) as Hall.
  { apply (run_invariant (λ st, Forall clean (all st))); [apply step_all_clean|done]. }
  assert (well_formed (run ops fresh w).1.2) as (_ & _ & Hp & Hh).
  { apply (run_invariant well_formed); [apply step_well_formed|].
    split_and!; try apply NoDup_nil_2; by intros x ?%elem_of_nil. }
  split_and!; [done| |]; apply Forall_forall; intros x Hx;
    eapply Forall_forall in Hall; eauto.
Qed.

(** X15: A roster without duplicates only grows, and at its end: whatever a
    session does, the names that were in [all] stay where they were. *)
Theorem roster_only_grows (ops : list op) (st : roster) (w : world G) :
  NoDup (all st) → all st `prefix_of` all (run ops st w).1.2.
Proof.
  intros Ha.
  apply (run_invariant (λ st', NoDup (all st') ∧ all st `prefix_of` all st')); [|done].
  intros o st' w' [Ha' Hpre]. split; [by apply step_all_NoDup|].
  etrans; [done|]. by apply step_all_prefix.
Qed.

(** X16: The count shown after typing names is the number of lines accepted,
    before duplicates are removed: the roster grows by that much when the
    names are new and differ from each other, and by less otherwise. *)
Theorem added_count_bounds_growth (typed : list string) (st : roster) (w : world G) :
  (step (Input typed) st w).1.1
  = [Added (length (accepted typed)) (length (pool (step (Input typed) st w).1.2))]
  ∧ length (all (step (Input typed) st w).1.2)
    ≤ length (all st) + length (accepted typed)
  ∧ (NoDup (all st ++ accepted typed) →
     length (all (step (Input typed) st w).1.2)
     = length (all st) + length (accepted typed)).
Proof.
  rewrite step_Input /=. split_and!; [done| |].
  - rewrite -length_app. apply sublist_length, (dedup_from_sublist []).
  - intros Hnd. by rewrite dedup_preserve_order_fixed // length_app.
Qed.

(** X17: As long as a choice brings no name that was already drawn, a store in
    which [pool] and [history] share out [all] stays so, and roster
    conservation holds after the turn. *)
Theorem new_names_keep_conservation (o : op) (st : roster) (w : world G) :
  partitioned st → (∀ x, x ∈ brings o w → x ∉ history st) →
  partitioned (step o st w).1.2 ∧ conservation (step o st w).1.2.
Proof.
  intros Hp Hnew. assert (partitioned (step o st w).1.2) as Hp'.
  { by apply step_partitioned. }
  split; [done|]. by apply partitioned_conservation.
Qed.

(** X18: A reset repairs the store: in whatever state a session is, after
    choice 5 the pool is the whole roster, the history is empty and roster
    conservation holds. *)
Theorem reset_restores_conservation (ops : list op) (w w' : world G) :
  pool (step Reset (run ops fresh w).1.2 w').1.2 = all (run ops fresh w).1.2
  ∧ history (step Reset (run ops fresh w).1.2 w').1.2 = []
  ∧ conservation (step Reset (run ops fresh w).1.2 w').1.2.
Proof.
  split_and!; [done..|]. apply partitioned_conservation. split; simpl.
  - apply run_all_NoDup, NoDup_nil_2.
  - by rewrite app_nil_r.
Qed.

(** X19: Drawing as many times as the pool has names empties it: [all] is
    unchanged, the names drawn are the pool in some order, appended to the
    history, and one more draw reports an empty pool. *)
Theorem draws_empty_the_pool (st : roster) (w : world G) :
  all (run (replicate (length (pool st)) Draw) st w).1.2 = all st
  ∧ pool (run (replicate (length (pool st)) Draw) st w).1.2 = []
  ∧ (∃ drawn,
       history (run (replicate (length (pool st)) Draw) st w).1.2
       = history st ++ drawn
       ∧ drawn ≡ₚ pool st)
  ∧ (step Draw (run (replicate (length (pool st)) Draw) st w).1.2
       (run (replicate (length (pool st)) Draw) st w).2).1.1
    = [NobodyToDraw].
Proof.
  destruct (draws_exhaust (length (pool st)) st w eq_refl) as (Ha & Hp & Hd).
  split_and!; [done..|]. by rewrite step_Draw_empty.
Qed.

(** X20: Loading a file does to the store what typing its lines that are not
    blank does, and shows the same two counts; a file that does not open
    is reported and changes nothing. *)
Theorem load_is_input_of_nonblank_lines (filename : string) (st : roster)
    (w : world G) :
  match open_in (fs w) filename with
  | Some data =>
      (step (Load filename) st w).1.2
      = (step (Input (nonblank (getlines "" data))) st w).1.2
      ∧ ∃ n k,
          (step (Load filename) st w).1.1 = [Loaded n k]
          ∧ (step (Input (nonblank (getlines "" data))) st w).1.1 = [Added n k]
  | None =>
      step (Load filename) st w = ([CannotOpen filename], st, w)
      ∧ reports (CannotOpen filename) = Some IoError
  end.
Proof.
  destruct (open_in (fs w) filename) as [data|] eqn:Hopen.
  - rewrite (step_Load _ data) // step_Input.
    rewrite accepted_of_clean; [apply nonblank_clean|]. split; [done|].
    by eexists _, _.
  - by rewrite /= Hopen.
Qed.

(** X21: What a session leaves alone: without an export no file changes, and
    without a draw the generator is not used. *)
Theorem session_frame (ops : list op) (st : roster) (w : world G) :
  (forallb (λ o, negb (exports o)) ops = true → fs (run ops st w).2 = fs w)
  ∧ (forallb (λ o, negb (draws o)) ops = true → rng (run ops st w).2 = rng w).
Proof.
  split; intros Hops.
  - apply (run_invariant_on (λ o, negb (exports o)) (λ _ w', fs w' = fs w)); [|done..].
    intros o st' w' Ho%negb_true_iff <-. by apply step_fs.
  - apply (run_invariant_on (λ o, negb (draws o)) (λ _ w', rng w' = rng w)); [|done..].
    intros o st' w' Ho%negb_true_iff <-. by apply step_rng.
Qed.

Lemma pick_index_animation (pool : list string) (g : G) :
  pool ≠ [] →
  length (animated_pick_index pool g).1.2 = 26
  ∧ Forall (λ m, ∃ name, m = Frame (Some name) ∧ name ∈ pool)
      (animated_pick_index pool g).1.2
  ∧ (0 ≤ (animated_pick_index pool g).1.1 < Z.of_nat (length pool))%Z.
Proof.
  intros Hne. rewrite animated_pick_index_eq /=.
  assert (0 ≤ Z.of_nat (length pool) - 1)%Z as Hle.
  { destruct pool; [done|]. simpl length. lia. }
  split_and!.
  - apply animate_length.
  - eapply Forall_impl; [by apply animate_frames|].
    intros m (x & Hx & ->). simpl.
    destruct (lookup_lt_is_Some_2 pool (Z.to_nat x)) as [name Hname]; [lia|].
    exists name. rewrite Hname. split; [done|]. by eapply list_elem_of_lookup_2.
  - pose proof (uniform_range 0 (Z.of_nat (length pool) - 1)
      (rng_skip 26 0 (Z.of_nat (length pool) - 1) g) Hle). lia.
  - pose proof (uniform_range 0 (Z.of_nat (length pool) - 1)
      (rng_skip 26 0 (Z.of_nat (length pool) - 1) g) Hle). lia.
Qed.

End session_more.

Lemma roster_only_grows_witness :
  NoDup (all {| all := ["Ann"]; pool := ["Ann"]; history := [] |})
  ∧ all {| all := ["Ann"]; pool := ["Ann"]; history := [] |}
    `prefix_of`
    all (run [Input ["Ann"; "Bob"; ""]]
           {| all := ["Ann"]; pool := ["Ann"]; history := [] |}
           {| fs := ∅; rng := [1%Z] |}).1.2.
Proof.
  assert (NoDup (all {| all := ["Ann"]; pool := ["Ann"]; history := [] |})) as Hnd.
  { simpl. apply NoDup_singleton. }
  split; [exact Hnd|].
  apply (roster_only_grows [Input ["Ann"; "Bob"; ""]]
           {| all := ["Ann"]; pool := ["Ann"]; history := [] |}
           {| fs := ∅; rng := [1%Z] |} Hnd).
Defined.

Lemma new_names_keep_conservation_witness :
  (partitioned {| all := ["Ann"]; pool := []; history := ["Ann"] |}
   ∧ ∀ x, x ∈ brings (Input ["Bob"; ""]) {| fs := ∅; rng := [1%Z] |} →
          x ∉ history {| all := ["Ann"]; pool := []; history := ["Ann"] |})
  ∧ conservation
      (step (Input ["Bob"; ""]) {| all := ["Ann"]; pool := []; history := ["Ann"] |}
         {| fs := ∅; rng := [1%Z] |}).1.2.
Proof.
  assert (partitioned {| all := ["Ann"]; pool := []; history := ["Ann"] |}) as Hp.
  { split; simpl; [apply NoDup_singleton|done]. }
  assert (∀ x, x ∈ brings (Input ["Bob"; ""]) {| fs := ∅; rng := [1%Z] |} →
               x ∉ history {| all := ["Ann"]; pool := []; history := ["Ann"] |}) as Hnew.
  { intros x Hx%list_elem_of_singleton Hh%list_elem_of_singleton.
    vm_compute in Hx. subst x. discriminate Hh. }
  split; [by split|].
  apply (new_names_keep_conservation (Input ["Bob"; ""])
           {| all := ["Ann"]; pool := []; history := ["Ann"] |}
           {| fs := ∅; rng := [1%Z] |} Hp Hnew).
Defined.

End ListDrawMore.

(** * Further properties of mode B *)

Module RangeDrawMore.
Import RangeDraw RangeDrawProofs.

Local Open Scope Z_scope.

Lemma sort_insert_perm (x : Z) (l : list Z) : sort_insert x l ≡ₚ x :: l.
Proof.
  induction l as [|y l IH]; simpl; [done|].
  case_bool_decide; [done|]. by rewrite IH Permutation_swap.
Qed.

Lemma sort_insert_sorted (x : Z) (l : list Z) :
  StronglySorted Z.le l → StronglySorted Z.le (sort_insert x l).
Proof.
  induction 1 as [|y l Hl IH Hy]; simpl.
  - by repeat constructor.
  - case_bool_decide as Hxy.
    + constructor; [by constructor|]. apply Forall_cons. split; [done|].
      eapply Forall_impl; [done|]. simpl. lia.
    + constructor; [done|]. rewrite sort_insert_perm. apply Forall_cons. split; [lia|done].
Qed.

Lemma sort_perm (l : list Z) : sort l ≡ₚ l.
Proof. induction l as [|x l IH]; simpl; [done|]. by rewrite sort_insert_perm IH. Qed.

Lemma sort_sorted (l : list Z) : StronglySorted Z.le (sort l).
Proof. induction l as [|x l IH]; simpl; [constructor|]. by apply sort_insert_sorted. Qed.

Lemma reset_bounded (st : range) : 0 ≤ N st → bounded (reset_pool st).
Proof.
  intros Hn. rewrite reset_pool_eq. split_and!; simpl; try done.
  - intros ->. done.
  - apply NoDup_seqZ.
  - apply Forall_forall. intros x Hx%elem_of_seqZ. lia.
Qed.

Section session_more.
Context `{UniformRng G}.

Lemma range_run_invariant (P : range → Prop) :
  (∀ o st (g : G), P st → P (step o st g).1.2) →
  ∀ ops st (g : G), P st → P (run ops st g).1.2.
Proof.
  intros Hstep ops. induction ops as [|o ops IH]; intros st g HP; [done|].
  assert (∀ r : list msg * range * G, P r.1.2 →
    P (let '(out1, st1, g1) := r in
       let '(out2, st2, g2) := run ops st1 g1 in
       (out1 ++ out2, st2, g2)).1.2) as Hgo.
  { intros [[out1 st1] g1] HP1. specialize (IH st1 g1 HP1).
    by destruct (run ops st1 g1) as [[out2 st2] g2]. }
  pose proof (Hstep o st g HP) as HP1.
  destruct o; try exact (Hgo _ HP1); done.
Qed.

Lemma step_bounded (o : op) (st : range) (g : G) :
  bounded st → bounded (step o st g).1.2.
Proof.
  intros Hb. pose proof Hb as (Hn & H0 & Hnd & Hp & Hh).
  destruct o as [|n| | | | |].
  - done.
  - simpl. case_bool_decide; simpl.
    + split_and!; try done. apply NoDup_nil_2.
    + apply reset_bounded. simpl. lia.
  - simpl. destruct (noRepeat st); simpl; [done|]. by apply reset_bounded.
  - destruct (decide (N st ≤ 0)) as [Hle|Hle]; [by rewrite step_Draw_unset|].
    destruct (noRepeat st) eqn:Hnr.
    + destruct (decide (pool st = [])) as [Hnil|Hnil].
      { rewrite step_Draw_exhausted //. lia. }
      destruct (step_Draw_no_repeat st g) as (result & Hr & ->); [lia|done|done|].
      split_and!; simpl; [done|lia| | |].
      * eapply sublist_NoDup; [done|apply sublist_delete].
      * apply Forall_forall. intros x Hx%list_elem_of_delete_inv.
        by eapply Forall_forall in Hp.
      * apply Forall_app. split; [done|]. apply Forall_singleton.
        eapply Forall_forall in Hp; [done|]. by eapply list_elem_of_lookup_2.
    + rewrite step_Draw_repeat; [lia|done|].
      split_and!; simpl; [done|lia|done|done|].
      apply Forall_app. split; [done|]. apply Forall_singleton.
      apply uniform_range. lia.
  - simpl. by destruct (history st).
  - by apply reset_bounded.
  - done.
Qed.

Lemma fresh_bounded : bounded fresh.
Proof. split_and!; try done. apply NoDup_nil_2. Qed.

Lemma range_run_cons_Draw (ops : list op) (st : range) (g : G) :
  run (Draw :: ops) st g
  = (let '(out1, st1, g1) := step Draw st g in
     let '(out2, st2, g2) := run ops st1 g1 in
     (out1 ++ out2, st2, g2)).
Proof. done. Qed.

Lemma no_repeat_draws_exhaust (k : nat) (st : range) (g : G) :
  0 < N st → noRepeat st = true → length (pool st) = k →
  N (run (replicate k Draw) st g).1.2 = N st
  ∧ noRepeat (run (replicate k Draw) st g).1.2 = true
  ∧ pool (run (replicate k Draw) st g).1.2 = []
  ∧ ∃ drawn, history (run (replicate k Draw) st g).1.2 = history st ++ drawn
             ∧ drawn ≡ₚ pool st.
Proof.
  revert st g. induction k as [|k IH]; intros st g Hn Hnr Hlen.
  - apply nil_length_inv in Hlen. simpl. split_and!; [done..|].
    exists []. by rewrite app_nil_r Hlen.
  - assert (pool st ≠ []) as Hne by (by destruct (pool st)).
    destruct (step_Draw_no_repeat st g Hn Hnr Hne) as (result & Hr & Heq).
    change (replicate (S k) Draw) with (Draw :: replicate k Draw).
    rewrite range_run_cons_Draw Heq.
    match goal with |- context [run _ ?st1 ?g1] =>
      destruct (IH st1 g1) as (HN & Hnr' & Hp & drawn & Hh & Hd);
      [ done | done | simpl; rewrite length_delete; [by eexists|lia] |];
      destruct (run (replicate k Draw) st1 g1) as [[out2 st2] g2]
    end.
    simpl in *. split_and!; [done..|].
    exists (result :: drawn). split; [by rewrite Hh -app_assoc|].
    rewrite Hd. symmetry. by apply delete_Permutation.
Qed.

Lemma repeat_draws_go_on (k : nat) (st : range) (g : G) :
  0 < N st → noRepeat st = false →
  N (run (replicate k Draw) st g).1.2 = N st
  ∧ pool (run (replicate k Draw) st g).1.2 = pool st
  ∧ ∃ drawn, history (run (replicate k Draw) st g).1.2 = history st ++ drawn
             ∧ length drawn = k
             ∧ Forall (λ x, 1 ≤ x ≤ N st) drawn.
Proof.
  revert st g. induction k as [|k IH]; intros st g Hn Hnr.
  - simpl. split_and!; [done..|]. exists []. by rewrite app_nil_r.
  - change (replicate (S k) Draw) with (Draw :: replicate k Draw).
    rewrite range_run_cons_Draw step_Draw_repeat //.
    match goal with |- context [run _ ?st1 ?g1] =>
      destruct (IH st1 g1) as (HN & Hp & drawn & Hh & Hl & Hd); [done..|];
      destruct (run (replicate k Draw) st1 g1) as [[out2 st2] g2]
    end.
    simpl in *. split_and!; [done..|].
    eexists (_ :: drawn). split; [by rewrite Hh -app_assoc|].
    split; [by rewrite /= Hl|]. apply Forall_cons. split; [|done].
    apply uniform_range. lia.
Qed.

(** X22: [N] is never negative, and while it is 0 the session keeps nothing and
    refuses to draw. *)
Theorem range_unset_keeps_nothing (ops : list op) (g g' : G) :
  0 ≤ N (run ops fresh g).1.2
  ∧ (N (run ops fresh g).1.2 = 0 →
     pool (run ops fresh g).1.2 = []
     ∧ history (run ops fresh g).1.2 = []
     ∧ (step Draw (run ops fresh g).1.2 g').1.1 = [NotSet]).
Proof.
  destruct (range_run_invariant bounded step_bounded ops fresh g fresh_bounded)
    as (Hn & H0 & _).
  split; [done|]. intros HN. destruct (H0 HN) as [-> ->].
  split_and!; [done..|]. rewrite step_Draw_unset //. lia.
Qed.

(** X23: With or without no-repeat, the pool never holds a value twice, and the
    pool and the history only hold numbers of [1..N]. *)
Theorem range_values_stay_in_range (ops : list op) (g : G) :
  NoDup (pool (run ops fresh g).1.2)
  ∧ Forall (λ x, 1 ≤ x ≤ N (run ops fresh g).1.2) (pool (run ops fresh g).1.2)
  ∧ Forall (λ x, 1 ≤ x ≤ N (run ops fresh g).1.2) (history (run ops fresh g).1.2).
Proof.
  by destruct (range_run_invariant bounded step_bounded ops fresh g fresh_bounded)
    as (_ & _ & ? & ? & ?).
Qed.

(** X24: Under no-repeat the two counts of the status line add up to [N]. *)
Theorem status_counts_add_up (ops : list op) (g : G) :
  noRepeat (run ops fresh g).1.2 = true →
  Z.of_nat (length (pool (run ops fresh g).1.2)
            + length (history (run ops fresh g).1.2))
  = N (run ops fresh g).1.2.
Proof.
  intros Hnr.
  destruct (range_run_invariant bounded step_bounded ops fresh g fresh_bounded) as (Hn & _).
  assert (balanced (run ops fresh g).1.2) as Hb.
  { apply run_balanced. by intros _. }
  rewrite -length_app (Hb Hnr) length_seqZ. lia.
Qed.

(** X25: Under no-repeat, [N] draws after [N] is set give every number of
    [1..N] once, in some order, and leave the pool empty; the next draw
    reports that nothing is left. *)
Theorem no_repeat_draws_every_number_once (n : Z) (st : range) (g : G) :
  0 < n → noRepeat st = true →
  pool (run (SetN n :: replicate (Z.to_nat n) Draw) st g).1.2 = []
  ∧ history (run (SetN n :: replicate (Z.to_nat n) Draw) st g).1.2 ≡ₚ seqZ 1 n
  ∧ (step Draw (run (SetN n :: replicate (Z.to_nat n) Draw) st g).1.2
       (run (SetN n :: replicate (Z.to_nat n) Draw) st g).2).1.1
    = [NothingToDraw].
Proof.
  intros Hn Hnr.
  set (st1 := {| N := n; noRepeat := noRepeat st; pool := seqZ 1 n; history := [] |}).
  assert (run (SetN n :: replicate (Z.to_nat n) Draw) st g
          = (let '(out2, st2, g2) := run (replicate (Z.to_nat n) Draw) st1 g in
             ([NSet n] ++ out2, st2, g2))) as ->.
  { rewrite /run -/run /step bool_decide_false; [lia|]. by rewrite reset_pool_eq. }
  destruct (no_repeat_draws_exhaust (Z.to_nat n) st1 g) as (HN & Hnr' & Hp & drawn & Hh & Hd);
    [done|done|by rewrite /= length_seqZ|].
  destruct (run (replicate (Z.to_nat n) Draw) st1 g) as [[out2 st2] g2].
  cbn [fst snd] in *. split_and!; [done|by rewrite Hh|].
  rewrite step_Draw_exhausted //. by rewrite HN.
Qed.

(** X26: Where repeats are allowed a draw never fails once [N] is set: any
    number of draws appends that many numbers of [1..N] to the history and
    leaves the pool alone. *)
Theorem repeat_draws_never_run_out (k : nat) (st : range) (g : G) :
  0 < N st → noRepeat st = false →
  pool (run (replicate k Draw) st g).1.2 = pool st
  ∧ ∃ drawn, history (run (replicate k Draw) st g).1.2 = history st ++ drawn
             ∧ length drawn = k
             ∧ Forall (λ x, 1 ≤ x ≤ N st) drawn.
Proof.
  intros Hn Hnr. by destruct (repeat_draws_go_on k st g Hn Hnr) as (_ & ? & ?).
Qed.

(** X27: Choice 4 shows the history smallest first and leaves it in draw order:
    what is shown is a sorted rearrangement, the store and the generator
    are as before. *)
Theorem view_shows_sorted_history (st : range) (g : G) :
  (step View st g).1.2 = st ∧ (step View st g).2 = g
  ∧ match history st with
    | [] => (step View st g).1.1 = [NoneDrawn]
    | _ => ∃ tmp, (step View st g).1.1 = [Sorted tmp]
                  ∧ tmp ≡ₚ history st ∧ StronglySorted Z.le tmp
    end.
Proof.
  simpl. destruct (history st) as [|x h] eqn:Hh; [done|].
  split_and!; [done..|]. eexists. split; [done|]. split; [apply sort_perm|apply sort_sorted].
Qed.

(** X28: Switching no-repeat twice is a reset: whatever the flag was, it is
    back, the pool is rebuilt and the history is empty, as after choice
    5. *)
Theorem toggle_twice_is_reset (st : range) (g : G) :
  (run [Toggle; Toggle] st g).1.2 = (step Reset st g).1.2
  ∧ (step Reset st g).1.2
    = {| N := N st; noRepeat := noRepeat st; pool := seqZ 1 (N st); history := [] |}.
Proof.
  split; [|by rewrite /= reset_pool_eq].
  rewrite /run /step. destruct (noRepeat st) eqn:Hnr; simpl.
  - by rewrite !reset_pool_eq /= Hnr.
  - by rewrite !reset_pool_eq /= Hnr.
Qed.

Lemma pick_number_animation (n : Z) (g : G) :
  1 ≤ n →
  length (animated_pick_number n g).1.2 = 32%nat
  ∧ Forall (λ m, ∃ x, m = Frame x ∧ 1 ≤ x ≤ n) (animated_pick_number n g).1.2
  ∧ 1 ≤ (animated_pick_number n g).1.1 ≤ n.
Proof.
  intros Hn. rewrite animated_pick_number_eq /=. split; [apply animate_length|].
  split; [|by apply uniform_range].
  eapply Forall_impl; [by apply animate_frames|]. naive_solver.
Qed.

End session_more.

Lemma status_counts_add_up_witness :
  noRepeat (run [SetN 3; Draw] fresh (replicate 33 0 ++ [2])).1.2 = true
  ∧ Z.of_nat (length (pool (run [SetN 3; Draw] fresh (replicate 33 0 ++ [2])).1.2)
              + length (history (run [SetN 3; Draw] fresh (replicate 33 0 ++ [2])).1.2))
    = N (run [SetN 3; Draw] fresh (replicate 33 0 ++ [2])).1.2.
Proof.
  split; [reflexivity|].
  apply (status_counts_add_up [SetN 3; Draw] (replicate 33 0 ++ [2])). reflexivity.
Defined.

Lemma no_repeat_draws_every_number_once_witness :
  (0 < 2 ∧ noRepeat fresh = true)
  ∧ pool (run (SetN 2 :: replicate (Z.to_nat 2) Draw) fresh [5; 8]).1.2 = [].
Proof.
  split; [split; [lia|reflexivity]|].
  destruct (no_repeat_draws_every_number_once 2 fresh [5; 8] ltac:(lia) eq_refl)
    as (Hp & _).
  exact Hp.
Defined.

Lemma repeat_draws_never_run_out_witness :
  (0 < N {| N := 3; noRepeat := false; pool := [1; 2; 3]; history := [] |}
   ∧ noRepeat {| N := 3; noRepeat := false; pool := [1; 2; 3]; history := [] |} = false)
  ∧ pool (run (replicate 5 Draw)
            {| N := 3; noRepeat := false; pool := [1; 2; 3]; history := [] |} [4]).1.2
    = [1; 2; 3].
Proof.
  split; [split; [simpl; lia|reflexivity]|].
  destruct (repeat_draws_never_run_out 5
              {| N := 3; noRepeat := false; pool := [1; 2; 3]; history := [] |} [4]
              ltac:(simpl; lia) eq_refl) as (Hp & _).
  exact Hp.
Defined.

End RangeDrawMore.

(** * Both animations *)

Section animations.
Context `{UniformRng G}.

(** X29: The animations never leave their range: before a roster draw the 26
    frames each show a name of the pool and the index returned is a
    position of the pool, so no read falls outside the vector; before a
    range draw the 32 frames and the number returned are numbers of
    [1..N]. *)
Theorem animations_stay_in_range (pool : list string) (n : Z) (g : G) :
  pool ≠ [] → (1 ≤ n)%Z →
  (length (ListDraw.animated_pick_index pool g).1.2 = 26
   ∧ Forall (λ m, ∃ name, m = ListDraw.Frame (Some name) ∧ name ∈ pool)
       (ListDraw.animated_pick_index pool g).1.2
   ∧ (0 ≤ (ListDraw.animated_pick_index pool g).1.1 < Z.of_nat (length pool))%Z)
  ∧ (length (RangeDraw.animated_pick_number n g).1.2 = 32
     ∧ Forall (λ m, ∃ x, m = RangeDraw.Frame x ∧ (1 ≤ x ≤ n)%Z)
         (RangeDraw.animated_pick_number n g).1.2
     ∧ (1 ≤ (RangeDraw.animated_pick_number n g).1.1 ≤ n)%Z).
Proof.
  intros Hpool Hn. split.
  - by apply ListDrawMore.pick_index_animation.
  - by apply RangeDrawMore.pick_number_animation.
Qed.

End animations.

Lemma animations_stay_in_range_witness :
  (["Ann"; "Bob"] ≠ [] ∧ (1 ≤ 3)%Z)
  ∧ length (ListDraw.animated_pick_index ["Ann"; "Bob"] [1%Z; 0%Z]).1.2 = 26
  ∧ (1 ≤ (RangeDraw.animated_pick_number 3 [7%Z; 8%Z]).1.1 ≤ 3)%Z.
Proof.
  assert (["Ann"; "Bob"] ≠ @nil string) as Hne by discriminate.
  split; [split; [exact Hne|lia]|].
  destruct (animations_stay_in_range ["Ann"; "Bob"] 3 [1%Z; 0%Z] Hne ltac:(lia))
    as ((Hl & _) & _).
  destruct (animations_stay_in_range ["Ann"; "Bob"] 3 [7%Z; 8%Z] Hne ltac:(lia))
    as (_ & (_ & _ & Hr)).
  split; [exact Hl|exact Hr].
Defined.

(** * The main menu *)

Section main_facts.
Context `{UniformRng G}.

Lemma main_loop_app (cs1 cs2 : list choice) (w : ListDraw.world G) :
  Exit ∉ cs1 →
  main_loop (cs1 ++ cs2) w
  = (let '(out1, w1) := main_loop cs1 w in
     let '(out2, w2) := main_loop cs2 w1 in
     (out1 ++ out2, w2)).
Proof.
  revert w. induction cs1 as [|c cs1 IH]; intros w Hex.
  - simpl. by destruct (main_loop cs2 w).
  - apply not_elem_of_cons in Hex as [Hc Hex].
    destruct c as [|ops|ops|]; [done|..]; simpl.
    + destruct (ListDraw.run ops ListDraw.fresh w) as [[out1 st1] w1].
      rewrite IH //. destruct (main_loop cs1 w1) as [out2 w2].
      destruct (main_loop cs2 w2) as [out3 w3]. by rewrite app_assoc.
    + destruct (RangeDraw.run ops RangeDraw.fresh (ListDraw.rng w)) as [[out1 st1] g1].
      rewrite IH //. destruct (main_loop cs1 _) as [out2 w2].
      destruct (main_loop cs2 w2) as [out3 w3]. by rewrite app_assoc.
    + rewrite IH //. destruct (main_loop cs1 w) as [out2 w2].
      by destruct (main_loop cs2 w2) as [out3 w3].
Qed.

(** X30: Sessions share the files and the generator, and nothing else: what is
    shown after earlier sessions is what the later choices show from the
    world those sessions left.  In particular a mode entered again starts
    empty: a draw chosen first finds no name in mode A and no [N] in mode
    B, whatever was typed or set before. *)
Theorem sessions_share_only_the_world (cs1 cs2 : list choice) (w : ListDraw.world G) :
  Exit ∉ cs1 →
  (main_loop (cs1 ++ cs2) w).1
  = (main_loop cs1 w).1 ++ (main_loop cs2 (main_loop cs1 w).2).1
  ∧ (main_loop (cs1 ++ cs2) w).2 = (main_loop cs2 (main_loop cs1 w).2).2
  ∧ (main_loop (cs1 ++ [ModeA [ListDraw.Draw]]) w).1
    = (main_loop cs1 w).1 ++ [InA ListDraw.NobodyToDraw]
  ∧ (main_loop (cs1 ++ [ModeB [RangeDraw.Draw]]) w).1
    = (main_loop cs1 w).1 ++ [InB RangeDraw.NotSet].
Proof.
  intros Hex. rewrite !main_loop_app //.
  destruct (main_loop cs1 w) as [out1 w1]. simpl.
  by destruct (main_loop cs2 w1) as [out2 w2].
Qed.

End main_facts.

Lemma sessions_share_only_the_world_witness :
  (Exit ∉ [ModeA [ListDraw.Input ["Ann"; ""]; ListDraw.Back]; Other])
  ∧ (main_loop ([ModeA [ListDraw.Input ["Ann"; ""]; ListDraw.Back]; Other]
                ++ [ModeA [ListDraw.Draw]])
       {| ListDraw.fs := ∅; ListDraw.rng := [3%Z] |}).1
    = (main_loop [ModeA [ListDraw.Input ["Ann"; ""]; ListDraw.Back]; Other]
         {| ListDraw.fs := ∅; ListDraw.rng := [3%Z] |}).1
      ++ [InA ListDraw.NobodyToDraw].
Proof.
  assert (Exit ∉ [ModeA [ListDraw.Input ["Ann"; ""]; ListDraw.Back]; Other]) as Hex.
  { intros Hin. repeat (apply elem_of_cons in Hin as [Hin|Hin]; [discriminate Hin|]).
    by apply elem_of_nil in Hin. }
  split; [exact Hex|].
  destruct (sessions_share_only_the_world
              [ModeA [ListDraw.Input ["Ann"; ""]; ListDraw.Back]; Other] []
              {| ListDraw.fs := ∅; ListDraw.rng := [3%Z] |} Hex) as (_ & _ & Ha & _).
  exact Ha.
Defined.
